(** * TiledArray: tile kernels, shape propagation and tiling helpers

    A shallow embedding of the parts of TiledArray that the specification
    talks about:

    - [src/TiledArray/math/vector_op.h]: the unrolled vector kernels
      ([VectorOpUnwind], [binary_vector_op], [reduce_vector_op]);
    - [src/TiledArray/permute_tiled_tensor.h]: the permuting expression node
      (its constructor, [init_shape] and [is_zero]);
    - [src/TiledArray/tile.h]: the tile wrapper and [subt];
    - [examples/ccd/input_data.cpp]: [make_trange1];
    - [tests/conversions.cpp]: the element conversions of the test fixture.

    Arrays are lists of cells indexed from zero; a cell of a local C++ array
    that was declared and not yet assigned is indeterminate, and reading it is
    an error of the model, as is every access outside an array.  Code that can
    fail returns [option]. *)

From Stdlib Require Import ZArith QArith Lia.
From stdpp Require Import prelude sorting gmap.

(** ** Memory: arrays of cells *)

(** The cells of an array and, in [written], the indices stored to, oldest
    first. *)
Record array (T : Type) := Array {
  cells : list (option T);
  written : list nat
}.
Arguments Array {T} _ _.
Arguments cells {T} _.
Arguments written {T} _.

(** An array holding the values of [l], with no store made yet. *)
Definition of_list {T} (l : list T) : array T := Array (Some <$> l) [].

(** [T block[n];]: a fresh local array of indeterminate cells. *)
Definition local_array {T} (n : nat) : array T := Array (replicate n None) [].

(** [a[i]] read. *)
Definition load {T} (a : array T) (i : nat) : option T :=
  match cells a !! i with
  | Some (Some x) => Some x
  | _ => None
  end.

(** [a[i] = v]. *)
Definition store {T} (a : array T) (i : nat) (v : T) : option (array T) :=
  if decide (i < length (cells a))
  then Some (Array (<[i := Some v]> (cells a)) (written a ++ [i]))
  else None.

(** The initialised values of an array, when every cell is. *)
Definition values {T} (a : array T) : option (list T) :=
  mapM id (cells a).

(** ** Loops *)

(** [for (; cond; ) body]: the loop stops when [cond] fails; [fuel] bounds the
    number of iterations. *)
Fixpoint for_loop {S : Type} (fuel : nat) (cond : S → bool)
    (body : S → option S) (s : S) : option S :=
  if cond s then
    match fuel with
    | O => None
    | S fuel' => s' ← body s; for_loop fuel' cond body s'
    end
  else Some s.

(** ** vector_op.h *)

(** [#define TILEDARRAY_LOOP_UNWIND 8].  The header's check of a value given
    from outside ([!= 1 || != 2 || ...]) rejects every value, so 8 is the
    only one the header compiles with. *)
Definition TILEDARRAY_LOOP_UNWIND : nat := 8.

(** [std::size_t] arithmetic: 64 bits, wrapping. *)
Definition size_wrap (z : Z) : Z := (z mod 2 ^ 64)%Z.

(** [index_mask::value = ~std::size_t(TILEDARRAY_LOOP_UNWIND - 1ul)]. *)
Definition index_mask : Z :=
  size_wrap (Z.lnot (Z.of_nat TILEDARRAY_LOOP_UNWIND - 1)).

(** A call that selects no function of the class it names. *)
Definition no_matching_call {X : Type} : option X := None.

Module VectorOpUnwind.

(** [offset = TILEDARRAY_LOOP_UNWIND - N - 1]; for [VectorOpUnwind<0>] the
    source writes [TILEDARRAY_LOOP_UNWIND - 1], the same value. *)
Definition offset (N : nat) : nat := TILEDARRAY_LOOP_UNWIND - N - 1.

(** [copy(arg, result)]; [ab] and [rb] are the positions the two pointers
    address in their arrays. *)
Fixpoint copy {A} (N : nat) (arg : array A) (ab : nat)
    (result : array A) (rb : nat) : option (array A) :=
  match N with
  | O =>
      x ← load arg (ab + offset 0);
      store result (rb + offset 0) x
  | S N1 =>
      x ← load arg (ab + offset N);
      result ← store result (rb + offset N) x;
      copy N1 arg ab result rb
  end.

(** [scatter(arg, result, stride)]. *)
Fixpoint scatter {A} (N : nat) (arg : array A) (ab : nat)
    (result : array A) (rb : nat) (stride : nat) : option (array A) :=
  match N with
  | O =>
      x ← load arg (ab + offset 0);
      store result rb x
  | S N1 =>
      x ← load arg (ab + offset N);
      result ← store result rb x;
      scatter N1 arg ab result (rb + stride) stride
  end.

(** [gather(arg, result, stride)]. *)
Fixpoint gather {A} (N : nat) (arg : array A) (ab : nat)
    (result : array A) (rb : nat) (stride : nat) : option (array A) :=
  match N with
  | O =>
      x ← load arg (ab + offset 0);
      store result rb x
  | S N1 =>
      x ← load arg ab;
      result ← store result (rb + offset N) x;
      gather N1 arg (ab + stride) result rb stride
  end.

(** [binary(left, right, result, op)]: [result[offset] = op(left[offset],
    right[offset])].  The three pointers address the starts of local
    blocks. *)
Fixpoint binary {L R T} (N : nat) (left : array L) (right : array R)
    (result : array T) (op : L → R → T) : option (array T) :=
  match N with
  | O =>
      l ← load left (offset 0);
      r ← load right (offset 0);
      store result (offset 0) (op l r)
  | S N1 =>
      l ← load left (offset N);
      r ← load right (offset N);
      result ← store result (offset N) (op l r);
      binary N1 left right result op
  end.

(** [binary(arg, result, op)]: [op(result[offset], arg[offset])], where [op]
    updates its first argument; [op r a] is the value it leaves there. *)
Fixpoint binary_to {A T} (N : nat) (arg : array A) (result : array T)
    (op : T → A → T) : option (array T) :=
  match N with
  | O =>
      a ← load arg (offset 0);
      r ← load result (offset 0);
      store result (offset 0) (op r a)
  | S N1 =>
      a ← load arg (offset N);
      r ← load result (offset N);
      result ← store result (offset N) (op r a);
      binary_to N1 arg result op
  end.

(** [reduce(arg, result, op)]: [op(result, arg[offset])], then, for [N > 0],
    [VectorOpUnwindN1::reduce(arg, result)].  That call passes no operator,
    and [VectorOpUnwind<N - 1>] declares [reduce] with three and with four
    parameters only. *)
Definition reduce {A T} (N : nat) (arg : array A) (result : T)
    (op : T → A → T) : option T :=
  match N with
  | O =>
      a ← load arg (offset 0);
      Some (op result a)
  | S N1 =>
      a ← load arg (offset N);
      let result := op result a in
      no_matching_call
  end.

(** [reduce(left, right, result, op)]: [op(result, left[offset],
    right[offset])], then, for [N > 0],
    [VectorOpUnwindN1::reduce(left, right, result)].  Three arguments select
    the three-parameter [reduce] with the accumulator where the operator
    belongs; an accumulator is a value and cannot be called. *)
Definition reduce2 {L R T} (N : nat) (left : array L) (right : array R)
    (result : T) (op : T → L → R → T) : option T :=
  match N with
  | O =>
      l ← load left (offset 0);
      r ← load right (offset 0);
      Some (op result l r)
  | S N1 =>
      l ← load left (offset N);
      r ← load right (offset N);
      let result := op result l r in
      no_matching_call
  end.

End VectorOpUnwind.

(** [typedef VectorOpUnwind<TILEDARRAY_LOOP_UNWIND - 1> VecOpUnwindN]. *)
Definition VecOpUnwindN : nat := TILEDARRAY_LOOP_UNWIND - 1.

Section vector_op.
Context {L R T : Type}.

(** One pass of the block loop of the three-array [binary_vector_op]. *)
Definition binary_block (left : array L) (right : array R) (op : L → R → T)
    (s : Z * array T) : option (Z * array T) :=
  let '(i, result) := s in
  left_block ← VectorOpUnwind.copy VecOpUnwindN left (Z.to_nat i)
                  (local_array TILEDARRAY_LOOP_UNWIND) 0;
  right_block ← VectorOpUnwind.copy VecOpUnwindN right (Z.to_nat i)
                  (local_array TILEDARRAY_LOOP_UNWIND) 0;
  result_block ← VectorOpUnwind.binary VecOpUnwindN left_block right_block
                  (local_array TILEDARRAY_LOOP_UNWIND) op;
  result ← VectorOpUnwind.copy VecOpUnwindN result_block 0 result (Z.to_nat i);
  Some (size_wrap (i + Z.of_nat TILEDARRAY_LOOP_UNWIND), result).

(** One pass of its remainder loop. *)
Definition binary_scalar (left : array L) (right : array R) (op : L → R → T)
    (s : Z * array T) : option (Z * array T) :=
  let '(i, result) := s in
  left_i ← load left (Z.to_nat i);
  right_i ← load right (Z.to_nat i);
  let temp_i := op left_i right_i in
  result ← store result (Z.to_nat i) temp_i;
  Some (size_wrap (i + 1), result).

(** [binary_vector_op(n, left, right, result, op)]. *)
Definition binary_vector_op (n : Z) (left : array L) (right : array R)
    (result : array T) (op : L → R → T) : option (array T) :=
  let i := 0%Z in
  let nx := Z.land n index_mask in
  s ← for_loop (Z.to_nat n) (λ s, bool_decide (s.1 < nx)%Z)
         (binary_block left right op) (i, result);
  s ← for_loop (Z.to_nat n) (λ s, bool_decide (s.1 < n)%Z)
         (binary_scalar left right op) s;
  Some s.2.

(** One pass of the block loop of the in-place [binary_vector_op]. *)
Definition binary_to_block (arg : array L) (op : T → L → T)
    (s : Z * array T) : option (Z * array T) :=
  let '(i, result) := s in
  result_block ← VectorOpUnwind.copy VecOpUnwindN result (Z.to_nat i)
                  (local_array TILEDARRAY_LOOP_UNWIND) 0;
  arg_block ← VectorOpUnwind.copy VecOpUnwindN arg (Z.to_nat i)
                  (local_array TILEDARRAY_LOOP_UNWIND) 0;
  result_block ← VectorOpUnwind.binary_to VecOpUnwindN arg_block result_block op;
  result ← VectorOpUnwind.copy VecOpUnwindN result_block 0 result (Z.to_nat i);
  Some (size_wrap (i + Z.of_nat TILEDARRAY_LOOP_UNWIND), result).

(** One pass of its remainder loop. *)
Definition binary_to_scalar (arg : array L) (op : T → L → T)
    (s : Z * array T) : option (Z * array T) :=
  let '(i, result) := s in
  result_block ← load result (Z.to_nat i);
  arg_block ← load arg (Z.to_nat i);
  let result_block := op result_block arg_block in
  result ← store result (Z.to_nat i) result_block;
  Some (size_wrap (i + 1), result).

(** [binary_vector_op(n, arg, result, op)], the in-place overload. *)
Definition binary_vector_op_to (n : Z) (arg : array L) (result : array T)
    (op : T → L → T) : option (array T) :=
  let i := 0%Z in
  let nx := Z.land n index_mask in
  s ← for_loop (Z.to_nat n) (λ s, bool_decide (s.1 < nx)%Z)
         (binary_to_block arg op) (i, result);
  s ← for_loop (Z.to_nat n) (λ s, bool_decide (s.1 < n)%Z)
         (binary_to_scalar arg op) s;
  Some s.2.

(** One pass of the block loop of the one-array [reduce_vector_op]. *)
Definition reduce_block (arg : array L) (op : T → L → T)
    (s : Z * T) : option (Z * T) :=
  let '(i, result) := s in
  arg_block ← VectorOpUnwind.copy VecOpUnwindN arg (Z.to_nat i)
                  (local_array TILEDARRAY_LOOP_UNWIND) 0;
  result ← VectorOpUnwind.reduce VecOpUnwindN arg_block result op;
  Some (size_wrap (i + Z.of_nat TILEDARRAY_LOOP_UNWIND), result).

(** One pass of its remainder loop. *)
Definition reduce_scalar (arg : array L) (op : T → L → T)
    (s : Z * T) : option (Z * T) :=
  let '(i, result) := s in
  arg_i ← load arg (Z.to_nat i);
  Some (size_wrap (i + 1), op result arg_i).

(** [reduce_vector_op(n, arg, result, op)]. *)
Definition reduce_vector_op (n : Z) (arg : array L) (result : T)
    (op : T → L → T) : option T :=
  let i := 0%Z in
  let nx := Z.land n index_mask in
  s ← for_loop (Z.to_nat n) (λ s, bool_decide (s.1 < nx)%Z)
         (reduce_block arg op) (i, result);
  s ← for_loop (Z.to_nat n) (λ s, bool_decide (s.1 < n)%Z)
         (reduce_scalar arg op) s;
  Some s.2.

(** One pass of the block loop of the two-array [reduce_vector_op]; the
    source advances by the literal [8ul] here. *)
Definition reduce2_block (left : array L) (right : array R)
    (op : T → L → R → T) (s : Z * T) : option (Z * T) :=
  let '(i, result) := s in
  left_block ← VectorOpUnwind.copy VecOpUnwindN left (Z.to_nat i)
                  (local_array TILEDARRAY_LOOP_UNWIND) 0;
  right_block ← VectorOpUnwind.copy VecOpUnwindN right (Z.to_nat i)
                  (local_array TILEDARRAY_LOOP_UNWIND) 0;
  result ← VectorOpUnwind.reduce2 VecOpUnwindN left_block right_block result op;
  Some (size_wrap (i + 8), result).

(** One pass of its remainder loop. *)
Definition reduce2_scalar (left : array L) (right : array R)
    (op : T → L → R → T) (s : Z * T) : option (Z * T) :=
  let '(i, result) := s in
  left_block ← load left (Z.to_nat i);
  right_block ← load right (Z.to_nat i);
  Some (size_wrap (i + 1), op result left_block right_block).

(** [reduce_vector_op(n, left, right, result, op)]. *)
Definition reduce_vector_op2 (n : Z) (left : array L) (right : array R)
    (result : T) (op : T → L → R → T) : option T :=
  let i := 0%Z in
  let nx := Z.land n index_mask in
  s ← for_loop (Z.to_nat n) (λ s, bool_decide (s.1 < nx)%Z)
         (reduce2_block left right op) (i, result);
  s ← for_loop (Z.to_nat n) (λ s, bool_decide (s.1 < n)%Z)
         (reduce2_scalar left right op) s;
  Some s.2.

End vector_op.

(** The elementwise loops the kernels are compared with. *)
Section naive_loops.
Context {L R T : Type}.

(** [for (i = 0; i < n; ++i) result[i] = op(left[i], right[i]);] *)
Fixpoint naive_binary (n : nat) (left : array L) (right : array R)
    (result : array T) (op : L → R → T) : option (array T) :=
  match n with
  | O => Some result
  | S m =>
      result ← naive_binary m left right result op;
      l ← load left m;
      r ← load right m;
      store result m (op l r)
  end.

(** [for (i = 0; i < n; ++i) op(result[i], arg[i]);] *)
Fixpoint naive_binary_to (n : nat) (arg : array L) (result : array T)
    (op : T → L → T) : option (array T) :=
  match n with
  | O => Some result
  | S m =>
      result ← naive_binary_to m arg result op;
      a ← load arg m;
      r ← load result m;
      store result m (op r a)
  end.

(** [for (i = 0; i < n; ++i) op(result, arg[i]);] *)
Fixpoint naive_reduce (n : nat) (arg : array L) (result : T)
    (op : T → L → T) : option T :=
  match n with
  | O => Some result
  | S m =>
      result ← naive_reduce m arg result op;
      a ← load arg m;
      Some (op result a)
  end.

End naive_loops.

(** What a kernel that fills [result[0..k)] leaves behind: cell [j < k] holds
    [f j], the cells from [k] on are those of [res0], and the stores made are
    those to [0, 1, ..., k - 1], one each, after the ones [res0] had seen. *)
Definition filled {T} (f : nat → option T) (res0 : array T) (k : nat)
    (out : array T) : Prop :=
  length (cells out) = length (cells res0) ∧
  (∀ j, j < k → load out j = f j) ∧
  (∀ j, k ≤ j → cells out !! j = cells res0 !! j) ∧
  written out = written res0 ++ seq 0 k.

(** ** input_data.cpp *)

Section input_data.
(** [obs_mosym::value_type], the type of a symmetry label. *)
Context {V : Type} `{EqDecision V}.

(** One pass of the loop of [make_trange1].  An iterator is the index it
    addresses in the label sequence that starts at [begin], so that
    [std::distance(begin, first)] is [first]. *)
Definition make_trange1_pass (labels : list V)
    (s : nat * V * list nat) : option (nat * V * list nat) :=
  let '(first, current, tiles) := s in
  x ← labels !! first;
  if decide (x ≠ current)
  then Some (S first, x, tiles ++ [first])
  else Some (S first, current, tiles).

(** [InputData::make_trange1(begin, first, last)]: the boundaries handed to
    the [TiledRange1] constructor. *)
Definition make_trange1 (labels : list V) (first last : nat)
    : option (list nat) :=
  current ← labels !! first;
  let tiles := [first] in
  s ← for_loop (length labels) (λ s, bool_decide (s.1.1 ≠ last))
         (make_trange1_pass labels) (first, current, tiles);
  Some (s.2 ++ [s.1.1]).

(** The invariant of that loop: [current] is the label before the position
    [first] has reached (the label at the start while it has not moved), and
    [tiles] holds the start followed by the positions passed at which the
    label changes, in increasing order. *)
Definition make_trange1_inv (labels : list V) (first0 last : nat)
    (s : nat * V * list nat) : Prop :=
  first0 ≤ s.1.1 ≤ last ∧
  labels !! (Nat.max first0 (s.1.1 - 1)) = Some s.1.2 ∧
  ∃ interior, s.2 = first0 :: interior ∧
    (∀ p, p ∈ interior ↔
          (first0 < p < s.1.1) ∧ labels !! p ≠ labels !! (p - 1)) ∧
    StronglySorted lt (first0 :: interior).

End input_data.

(** ** permute_tiled_tensor.h *)

(** Modelled from the spec: [TiledArray::detail::Bitset<>], whose header is
    not among the sources.  A bitset has a fixed number of bits, all clear
    when it is built, stored in blocks ("iterating a bitset in block-sized
    chunks"); a set bit marks a structurally nonzero tile.  An index outside
    the set trips the accessor's assertion. *)
Module Bitset.

Record t := Make { bits : list bool }.

(** [Bitset<>(n)]. *)
Definition new (n : nat) : t := Make (replicate n false).

Definition size (b : t) : nat := length (bits b).

(** [8 * sizeof(block_type)], for the default block type [unsigned long]. *)
Definition block_bits : nat := 8 * 8.

Definition num_blocks (b : t) : nat :=
  size b / block_bits + (if decide (size b mod block_bits = 0) then 0 else 1).

(** [get()[k]] as a condition: whether block [k] has a bit set. *)
Definition block (b : t) (k : nat) : option bool :=
  if decide (k < num_blocks b)
  then Some (existsb id (take block_bits (drop (k * block_bits) (bits b))))
  else None.

(** [operator[](i)]. *)
Definition get (b : t) (i : nat) : option bool := bits b !! i.

(** [set(i)]. *)
Definition set (b : t) (i : nat) : option t :=
  if decide (i < size b) then Some (Make (<[i := true]> (bits b))) else None.

End Bitset.

Inductive DimensionOrderType :=
  | decreasing_dimension_order
  | increasing_dimension_order.

(** Modelled from the spec: [Permutation<DIM>] and [detail::permute_array]
    (permutation.h is not among the sources).  A permutation is the list of
    the images of the dimensions; applying it to an array of extents or
    weights sends the entry of dimension [i] to dimension [p[i]]. *)
Definition permute_array (p : list nat) (s : list nat) : list nat :=
  foldl (λ result '(i, x), <[i := x]> result) (replicate (length p) 0)
        (zip p s).

(** Modelled from the spec: [-p], the inverse permutation, for which
    "[p ∘ p⁻¹ = identity] must hold exactly". *)
Definition inverse_permutation (p : list nat) : list nat :=
  permute_array p (seq 0 (length p)).

(** The members of the template parameter [CS] that [init_shape] calls. *)
Class CoordinateSystem := {
  calc_weight : list nat → list nat;
  calc_ordinal : list nat → list nat → nat;
  increment_coordinate : list nat → list nat → list nat → list nat
}.

(** Modelled from the spec: the two instances of [CoordinateSystem] that the
    constructor names (coordinate_system.h is not among the sources).  The
    weight of a dimension is the product of the extents of the dimensions
    that vary faster, which are the later ones in decreasing order and the
    earlier ones in increasing order; the ordinal of an index is the sum of
    its coordinates times their weights; incrementing steps the fastest
    dimension and carries. *)
Fixpoint weight_decreasing (size : list nat) : list nat :=
  match size with
  | [] => []
  | _ :: rest => foldr Nat.mul 1 rest :: weight_decreasing rest
  end.

Definition ordinal_of (index weight : list nat) : nat :=
  foldr Nat.add 0 (zip_with Nat.mul index weight).

Fixpoint increment_first (index start finish : list nat) : list nat :=
  match index, start, finish with
  | i :: index', s :: start', f :: finish' =>
      if decide (S i < f) then S i :: index'
      else s :: increment_first index' start' finish'
  | _, _, _ => index
  end.

(** Modelled from the spec: the coordinate system of
    [increasing_dimension_order], the first dimension varying fastest. *)
#[export] Instance cs_increasing : CoordinateSystem := {
  calc_weight size := reverse (weight_decreasing (reverse size));
  calc_ordinal := ordinal_of;
  increment_coordinate := increment_first
}.

(** Modelled from the spec: the coordinate system of
    [decreasing_dimension_order], the last dimension varying fastest. *)
#[export] Instance cs_decreasing : CoordinateSystem := {
  calc_weight := weight_decreasing;
  calc_ordinal := ordinal_of;
  increment_coordinate index start finish :=
    reverse (increment_first (reverse index) (reverse start) (reverse finish))
}.

(** What the node reads of its argument [arg_]: the number of tiles along
    each dimension, the tile ordering, whether every tile is present, and,
    for a sparse argument, the shape bitset. *)
Record tensor_arg := TensorArg {
  arg_size : list nat;
  arg_order : DimensionOrderType;
  arg_is_dense : bool;
  arg_get_shape : Bitset.t
}.

(** [arg.volume()], the number of tiles. *)
Definition volume (size : list nat) : nat := foldr Nat.mul 1 size.

(** The members of [PermuteTiledTensor] that the shape depends on; [trange_]
    is kept as the number of tiles along each dimension. *)
Record PermuteTiledTensor := {
  perm_ : list nat;
  arg_ : tensor_arg;
  size_ : list nat;
  trange_ : list nat;
  shape_ : Bitset.t
}.

(** [permute_size(p, s)]. *)
Definition permute_size (p : list nat) (s : list nat) : list nat :=
  permute_array p s.

Section init_shape.
Context {CS : CoordinateSystem}.

(** [count = 8 * sizeof(Bitset<>::block_type)]. *)
Definition count : nat := Bitset.block_bits.

(** One pass of the loop of [init_shape_helper::operator()]. *)
Definition init_shape_pass (arg : tensor_arg) (invp_weight start : list nat)
    (s : nat * list nat * Bitset.t) : option (nat * list nat * Bitset.t) :=
  let '(first, index, shape) := s in
  bit ← Bitset.get (arg_get_shape arg) first;
  shape ← (if bit : bool
           then Bitset.set shape (calc_ordinal index invp_weight)
           else Some shape);
  Some (S first, increment_coordinate index start (arg_size arg), shape).

(** [init_shape_helper::operator()(b)], acting on the destination
    [shape_]. *)
Definition init_shape_helper (arg : tensor_arg) (invp_weight : list nat)
    (shape : Bitset.t) (b : nat) : option Bitset.t :=
  nonzero ← Bitset.block (arg_get_shape arg) b;
  if nonzero : bool then
    let index := replicate (length (arg_size arg)) 0 in
    let start := replicate (length (arg_size arg)) 0 in
    let first := b * count in
    let last := first + count in
    s ← for_loop count (λ s, bool_decide (s.1.1 < last))
           (init_shape_pass arg invp_weight start) (first, index, shape);
    Some s.2
  else Some shape.

(** [init_shape<CS>()]: the helper is run on the blocks
    [0 .. shape_.num_blocks()) of the destination; the passes only set bits,
    so the order in which the task queue runs them does not show.  The
    source declares a parameter [result]; the constructor passes none and
    the body reads none. *)
Definition init_shape (perm size : list nat) (arg : tensor_arg)
    (shape : Bitset.t) : option Bitset.t :=
  let invp_weight :=
    permute_array (inverse_permutation perm) (calc_weight size) in
  foldl (λ acc b, shape ← acc; init_shape_helper arg invp_weight shape b)
        (Some shape) (seq 0 (Bitset.num_blocks shape)).

End init_shape.

(** The constructor [PermuteTiledTensor(arg, p)], up to the initialisation of
    the shape. *)
Definition PermuteTiledTensor_new (arg : tensor_arg) (p : list nat)
    : option PermuteTiledTensor :=
  let size := permute_size p (arg_size arg) in
  let trange := permute_array p (arg_size arg) in
  let shape := Bitset.new (if arg_is_dense arg
                           then volume (arg_size arg) else 0) in
  shape ← (if negb (arg_is_dense arg) then
             match arg_order arg with
             | decreasing_dimension_order =>
                 init_shape (CS := cs_decreasing) p size arg shape
             | increasing_dimension_order =>
                 init_shape (CS := cs_increasing) p size arg shape
             end
           else Some shape);
  Some {| perm_ := p; arg_ := arg; size_ := size; trange_ := trange;
          shape_ := shape |}.

(** [is_dense()]. *)
Definition is_dense (t : PermuteTiledTensor) : bool := arg_is_dense (arg_ t).

(** [get_shape()]. *)
Definition get_shape (t : PermuteTiledTensor) : Bitset.t := shape_ t.

(** [trange_.includes(i)] for a tile ordinal. *)
Definition includes (trange : list nat) (i : nat) : bool :=
  bool_decide (i < volume trange).

(** [is_zero(i)]; a failed [TA_ASSERT] gives no answer. *)
Definition is_zero (t : PermuteTiledTensor) (i : nat) : option bool :=
  if includes (trange_ t) i then
    if is_dense t then Some true
    else Bitset.get (shape_ t) i
  else None.

(** The shape the specification describes for [permute(arg, p)], bit by bit:
    for every source ordinal whose bit is set, the bit of the ordinal that
    the permuted index has in the permuted range is set. *)
Section naive_shape.
Context {CS : CoordinateSystem}.

Definition naive_permute_pass (arg : tensor_arg) (invp_weight start : list nat)
    (s : list nat * Bitset.t) (o : nat) : list nat * Bitset.t :=
  let '(index, shape) := s in
  (increment_coordinate index start (arg_size arg),
   if bool_decide (Bitset.get (arg_get_shape arg) o = Some true)
   then default shape (Bitset.set shape (calc_ordinal index invp_weight))
   else shape).

Definition naive_permute_shape (arg : tensor_arg) (p : list nat) : Bitset.t :=
  let size := permute_size p (arg_size arg) in
  let invp_weight :=
    permute_array (inverse_permutation p) (calc_weight size) in
  let start := replicate (length (arg_size arg)) 0 in
  (foldl (naive_permute_pass arg invp_weight start)
         (start, Bitset.new (volume (arg_size arg)))
         (seq 0 (volume (arg_size arg)))).2.

End naive_shape.

(** ** tile.h *)

(** [Tile<T>]: [pimpl_] is a shared pointer to the tensor, null in a
    default-constructed tile. *)
Record Tile (T : Type) := MkTile { pimpl_ : option T }.
Arguments MkTile {T} _.
Arguments pimpl_ {T} _.

(** [tensor()]: [*pimpl_]; a null pointer has nothing to give. *)
Definition tensor {T} (t : Tile T) : option T := pimpl_ t.

(** [detail::make_tile(t)]. *)
Definition make_tile {T} (t : T) : Tile T := MkTile (Some t).

(** The functions on the tensor type [T] that the tile functions forward to
    (tile_op/tile_interface.h is not among the sources); [S] is the type of a
    scaling factor and a permutation is the list of the images of the
    dimensions.  A tensor function that rejects its arguments gives no
    result.  [tensor_sub] is the function [sub] that the declared result
    type of the two-argument [subt] names; it is there only when a function
    of that name is declared for [T]. *)
Class TensorInterface (T S : Type) := {
  tensor_sub : option (T → T → option T);
  tensor_subt : T → T → option T;
  tensor_subt_scaled : T → T → S → option T;
  tensor_subt_perm : T → T → list nat → option T;
  tensor_subt_scaled_perm : T → T → S → list nat → option T
}.

Section tile_subt.
Context {T S : Type} `{TensorInterface T S}.

(** [subt(left, right)].  The declared result type is
    [Tile<decltype(sub(left.tensor(), right.tensor()))>]: where no function
    [sub] is declared for the tensors the substitution fails, the overload
    is left out of the candidates, and a call with two tiles has no
    function to call (the other overloads take three or four arguments, or
    a numeric second argument).  Where one is declared, the body returns
    what the tensor function [subt] computes. *)
Definition subt (left right : Tile T) : option (Tile T) :=
  match tensor_sub with
  | None => no_matching_call
  | Some _ =>
      l ← tensor left;
      r ← tensor right;
      t ← tensor_subt l r;
      Some (make_tile t)
  end.

(** [subt(left, right, factor)]. *)
Definition subt_scaled (left right : Tile T) (factor : S) : option (Tile T) :=
  l ← tensor left;
  r ← tensor right;
  t ← tensor_subt_scaled l r factor;
  Some (make_tile t).

(** [subt(left, right, perm)]. *)
Definition subt_perm (left right : Tile T) (perm : list nat)
    : option (Tile T) :=
  l ← tensor left;
  r ← tensor right;
  t ← tensor_subt_perm l r perm;
  Some (make_tile t).

(** [subt(left, right, factor, perm)]. *)
Definition subt_scaled_perm (left right : Tile T) (factor : S)
    (perm : list nat) : option (Tile T) :=
  l ← tensor left;
  r ← tensor right;
  t ← tensor_subt_scaled_perm l r factor perm;
  Some (make_tile t).

End tile_subt.

(** Modelled from the spec: the dense tensor behind a tile, "a dense buffer
    over one tile's local element range", and its elementwise functions.
    The specification has the tile algebra call the unrolled vector loops as
    its leaf kernels, so an elementwise function is one [binary_vector_op]
    over the two buffers into a fresh one; operands of different ranges are
    rejected. *)
Record Tensor (E : Type) := MkTensor {
  range : list nat;
  data : list E
}.
Arguments MkTensor {E} _ _.
Arguments range {E} _.
Arguments data {E} _.

(** Modelled from the spec: an elementwise function of two dense tensors,
    computed by the vector kernel over their buffers. *)
Definition tensor_binary {E} (op : E → E → E) (left right : Tensor E)
    : option (Tensor E) :=
  if decide (range left = range right) then
    let n := volume (range left) in
    out ← binary_vector_op (Z.of_nat n) (of_list (data left))
             (of_list (data right)) (local_array n) op;
    d ← values out;
    Some (MkTensor (range left) d)
  else None.

(** The index that has the ordinal [o] in a range of extents [size] with
    the weights [weight]. *)
Definition index_of (weight size : list nat) (o : nat) : list nat :=
  zip_with (λ w s, (o / w) mod s) weight size.

(** Modelled from the spec: [perm ^ t] for a dense tensor, the last
    dimension varying fastest.  The extent and the coordinate of dimension
    [i] go to dimension [perm[i]]: the element of the result at an index is
    the element of [t] at the index whose coordinate [i] is the coordinate
    [perm[i]] of the result's. *)
Definition tensor_permute {E} (perm : list nat) (t : Tensor E)
    : option (Tensor E) :=
  let size := permute_array perm (range t) in
  d ← mapM (λ o,
              let index := index_of (weight_decreasing size) size o in
              source ← mapM (λ pi, index !! pi) perm;
              data t !! ordinal_of source (weight_decreasing (range t)))
           (seq 0 (volume size));
  Some (MkTensor size d).

(** Modelled from the spec: the interface for dense tensors of integers.
    [subt] is [left - right], with a factor [(left - right) * factor], with
    a permutation [perm ^ (left - right)], with both
    [perm ^ (left - right) * factor], as the comments of tile.h say.  [sub]
    is a parameter: the sources declare no function of that name, which is
    [dense_interface None]. *)
Definition dense_interface
    (sub : option (Tensor Z → Tensor Z → option (Tensor Z)))
    : TensorInterface (Tensor Z) Z := {|
  tensor_sub := sub;
  tensor_subt := tensor_binary Z.sub;
  tensor_subt_scaled l r factor :=
    tensor_binary (λ x y, (x - y) * factor)%Z l r;
  tensor_subt_perm l r perm :=
    t ← tensor_binary Z.sub l r; tensor_permute perm t;
  tensor_subt_scaled_perm l r factor perm :=
    t ← tensor_binary (λ x y, (x - y) * factor)%Z l r; tensor_permute perm t
|}.

(** ** TiledRange1 *)

(** The error kinds of the specification that the modelled code raises. *)
Inductive error := IndexOutOfRange.

(** Modelled from the spec: [TiledRange1] (its source is not among the
    files), an "ordered sequence of tile boundary offsets over one
    dimension". *)
Record TiledRange1 := MkTiledRange1 { boundaries : list Z }.

(** The search along the boundaries that follow the lower bound of tile
    [t]. *)
Fixpoint boundary_search (bs : list Z) (e : Z) (t : nat) : option nat :=
  match bs with
  | [] => None
  | b :: bs' => if decide (e < b)%Z then Some t else boundary_search bs' e (S t)
  end.

(** Modelled from the spec: [element_to_tile(element_index)] "performs a
    boundary search and fails with [IndexOutOfRange] if the element lies
    outside the covered span". *)
Definition element_to_tile (tr : TiledRange1) (e : Z) : error + nat :=
  match boundaries tr with
  | [] => inl IndexOutOfRange
  | b0 :: bs =>
      if decide (e < b0)%Z then inl IndexOutOfRange
      else match boundary_search bs e 0 with
           | Some t => inr t
           | None => inl IndexOutOfRange
           end
  end.

(** ** conversions.cpp *)

(** The element types of [TensorI] and [TensorF].  An [int] is a 32-bit
    integer.  The [float]s that occur are the images of [int]s; each holds an
    integer, and is kept as that integer. *)
Definition int_min : Z := - 2 ^ 31.
Definition int_max : Z := 2 ^ 31 - 1.

Record float := Float { float_value : Z }.

(** [float(x)] for an [int]: the nearest number with a 24-bit significand,
    ties to the even one. *)
Definition float_of_int (x : Z) : float :=
  let a := Z.abs x in
  if decide (a < 2 ^ 24)%Z then Float x
  else
    let e := (Z.log2 a - 23)%Z in
    let q := (a / 2 ^ e)%Z in
    let r := (a mod 2 ^ e)%Z in
    let half := (2 ^ (e - 1))%Z in
    let q := if decide (r < half)%Z then q
             else if decide (half < r)%Z then (q + 1)%Z
             else if Z.even q then q else (q + 1)%Z in
    Float (Z.sgn x * (q * 2 ^ e)).

(** [int(y)]: the value of [y] when an [int] can hold it; the conversion is
    undefined otherwise. *)
Definition int_of_float (y : float) : option Z :=
  if decide (int_min ≤ float_value y ≤ int_max)%Z
  then Some (float_value y) else None.

(** An [int] value, and one that [float] holds exactly. *)
Definition int_range (x : Z) : Prop := (int_min ≤ x ≤ int_max)%Z.
Definition representable (x : Z) : Prop := float_of_int x = Float x.

(** [ConversionsFixture::tensori_to_tensorf]. *)
Definition tensori_to_tensorf (tensori : Tensor Z) : Tensor float :=
  MkTensor (range tensori) (float_of_int <$> data tensori).

(** [ConversionsFixture::tensorf_to_tensori]. *)
Definition tensorf_to_tensori (tensorf : Tensor float) : option (Tensor Z) :=
  d ← mapM int_of_float (data tensorf);
  Some (MkTensor (range tensorf) d).

(** Modelled from the spec: the parts of a [DistArray] that the conversion
    test reads (the array classes are not among the sources).  The array
    "aggregates a TiledRange, a ProcessMap, a SparseShape (or an all-dense
    marker), and a DistributedStorage"; the shape is "a per-tile scalar (norm
    estimate) array ... plus a truncation threshold", and the storage maps
    the ordinal of a nonzero tile to its tile. *)
Record SparseShape := MkShape {
  norms : list Q;
  threshold : Q
}.

(** Modelled from the spec: the range, the process map, the shape (absent
    for a dense array) and the storage of a [DistArray]. *)
Record DistArray (T : Type) := MkDistArray {
  da_trange : list TiledRange1;
  da_pmap : nat → nat;
  da_shape : option SparseShape;
  da_storage : gmap nat T
}.
Arguments MkDistArray {T} _ _ _ _.
Arguments da_trange {T} _.
Arguments da_pmap {T} _.
Arguments da_shape {T} _.
Arguments da_storage {T} _.

(** Modelled from the spec: "a tile is zero iff its norm ≤ threshold"; a
    dense array has no zero tile. *)
Definition da_is_zero {T} (a : DistArray T) (i : nat) : option bool :=
  match da_shape a with
  | None => Some false
  | Some sh => n ← norms sh !! i; Some (Qle_bool n (threshold sh))
  end.

(** Modelled from the spec: [to_new_tile_type(array, fn)] "rebuilds an array
    with every tile's element type transformed by the given function while
    preserving the shape and distribution".  Where the function is undefined
    on a stored tile, so is the conversion. *)
Definition to_new_tile_type {T U} (a : DistArray T) (fn : T → option U)
    : option (DistArray U) :=
  if decide (map_Forall (λ _ t, is_Some (fn t)) (da_storage a))
  then Some (MkDistArray (da_trange a) (da_pmap a) (da_shape a)
               (omap fn (da_storage a)))
  else None.

(** ** vector_op.h: the unary kernels and the binders *)

Module VectorOpUnwindUnary.
Import VectorOpUnwind.

(** [unary(arg, result, op)]: [result[offset] = op(arg[offset])]. *)
Fixpoint unary {A T} (N : nat) (arg : array A) (result : array T)
    (op : A → T) : option (array T) :=
  match N with
  | O =>
      a ← load arg (offset 0);
      store result (offset 0) (op a)
  | S N1 =>
      a ← load arg (offset N);
      result ← store result (offset N) (op a);
      unary N1 arg result op
  end.

(** [unary(result, op)]: [op(result[offset])], where [op] updates its
    argument; [op r] is the value it leaves there. *)
Fixpoint unary_to {T} (N : nat) (result : array T) (op : T → T)
    : option (array T) :=
  match N with
  | O =>
      r ← load result (offset 0);
      store result (offset 0) (op r)
  | S N1 =>
      r ← load result (offset N);
      result ← store result (offset N) (op r);
      unary_to N1 result op
  end.

End VectorOpUnwindUnary.

Section unary_vector_op.
Context {A T : Type}.

(** One pass of the block loop of the in-place [unary_vector_op]; the source
    advances by the literal [8ul]. *)
Definition unary_to_block (op : T → T) (s : Z * array T)
    : option (Z * array T) :=
  let '(i, result) := s in
  result_block ← VectorOpUnwind.copy VecOpUnwindN result (Z.to_nat i)
                  (local_array TILEDARRAY_LOOP_UNWIND) 0;
  result_block ← VectorOpUnwindUnary.unary_to VecOpUnwindN result_block op;
  result ← VectorOpUnwind.copy VecOpUnwindN result_block 0 result (Z.to_nat i);
  Some (size_wrap (i + 8), result).

(** One pass of its remainder loop. *)
Definition unary_to_scalar (op : T → T) (s : Z * array T)
    : option (Z * array T) :=
  let '(i, result) := s in
  temp_i ← load result (Z.to_nat i);
  let temp_i := op temp_i in
  result ← store result (Z.to_nat i) temp_i;
  Some (size_wrap (i + 1), result).

(** [unary_vector_op(n, result, op)]. *)
Definition unary_vector_op_to (n : Z) (result : array T) (op : T → T)
    : option (array T) :=
  let i := 0%Z in
  let nx := Z.land n index_mask in
  s ← for_loop (Z.to_nat n) (λ s, bool_decide (s.1 < nx)%Z)
         (unary_to_block op) (i, result);
  s ← for_loop (Z.to_nat n) (λ s, bool_decide (s.1 < n)%Z)
         (unary_to_scalar op) s;
  Some s.2.

(** One pass of the block loop of the two-array [unary_vector_op]. *)
Definition unary_block (arg : array A) (op : A → T) (s : Z * array T)
    : option (Z * array T) :=
  let '(i, result) := s in
  arg_block ← VectorOpUnwind.copy VecOpUnwindN arg (Z.to_nat i)
                  (local_array TILEDARRAY_LOOP_UNWIND) 0;
  result_block ← VectorOpUnwindUnary.unary VecOpUnwindN arg_block
                  (local_array TILEDARRAY_LOOP_UNWIND) op;
  result ← VectorOpUnwind.copy VecOpUnwindN result_block 0 result (Z.to_nat i);
  Some (size_wrap (i + Z.of_nat TILEDARRAY_LOOP_UNWIND), result).

(** One pass of its remainder loop. *)
Definition unary_scalar (arg : array A) (op : A → T) (s : Z * array T)
    : option (Z * array T) :=
  let '(i, result) := s in
  arg_i ← load arg (Z.to_nat i);
  let temp_i := op arg_i in
  result ← store result (Z.to_nat i) temp_i;
  Some (size_wrap (i + 1), result).

(** [unary_vector_op(n, arg, result, op)]. *)
Definition unary_vector_op (n : Z) (arg : array A) (result : array T)
    (op : A → T) : option (array T) :=
  let i := 0%Z in
  let nx := Z.land n index_mask in
  s ← for_loop (Z.to_nat n) (λ s, bool_decide (s.1 < nx)%Z)
         (unary_block arg op) (i, result);
  s ← for_loop (Z.to_nat n) (λ s, bool_decide (s.1 < n)%Z)
         (unary_scalar arg op) s;
  Some s.2.

End unary_vector_op.

(** [BinderFirstHelper<T, Op, Result>::operator()(arg)]: [op_(t_, arg)]. *)
Definition bind_first {X A B} (t : X) (op : X → A → B) : A → B :=
  λ arg, op t arg.

(** [BinderFirstHelper<T, Op, void>::operator()(result, arg)]:
    [op_(result, t_, arg)]; [op r t a] is the value [op] leaves in its first
    argument. *)
Definition bind_first_void {X A R} (t : X) (op : R → X → A → R) : R → A → R :=
  λ result arg, op result t arg.

(** [BinderSecondHelper<T, Op, Result>::operator()(arg)]: the source returns
    [op_(t_, arg)] here as well. *)
Definition bind_second {X A B} (t : X) (op : X → A → B) : A → B :=
  λ arg, op t arg.

(** [BinderSecondHelper<T, Op, void>::operator()(result, arg)]:
    [op_(result, arg, t_)]. *)
Definition bind_second_void {X A R} (t : X) (op : R → A → X → R) : R → A → R :=
  λ result arg, op result arg t.

(** ** input_data.cpp: [InputData::trange] *)

Inductive Spin := alpha | beta.

Inductive RangeOV := occ | vir.

Section input_data_trange.
Context {V : Type} `{EqDecision V}.

(** The members of [InputData] that [trange] reads. *)
Record InputData := MkInputData {
  nmo_ : nat;
  nocc_act_alpha_ : nat;
  nocc_act_beta_ : nat;
  obs_mosym_alpha_ : list V;
  obs_mosym_beta_ : list V
}.

(** [InputData::trange(s, ov1, ov2)]: the list [tr_list] of one-dimensional
    ranges handed to the [StaticTiledRange] constructor, each as its
    boundaries. *)
Definition trange (d : InputData) (s : Spin) (ov1 ov2 : RangeOV)
    : option (list (list nat)) :=
  let spin := match s with alpha => obs_mosym_alpha_ d
                         | beta => obs_mosym_beta_ d end in
  let nocc := match s with alpha => nocc_act_alpha_ d
                         | beta => nocc_act_beta_ d end in
  let first1 := match ov1 with occ => 0 | vir => nocc end in
  let last1 := match ov1 with occ => nocc | vir => nmo_ d end in
  let first2 := match ov2 with occ => 0 | vir => nocc end in
  let last2 := match ov2 with occ => nocc | vir => nmo_ d end in
  t1 ← make_trange1 spin first1 last1;
  t2 ← make_trange1 spin first2 last2;
  Some [t1; t2].

(** [InputData::trange(s1, s2, ov1, ov2, ov3, ov4)]. *)
Definition trange4 (d : InputData) (s1 s2 : Spin) (ov1 ov2 ov3 ov4 : RangeOV)
    : option (list (list nat)) :=
  let spin1 := match s1 with alpha => obs_mosym_alpha_ d
                           | beta => obs_mosym_beta_ d end in
  let nocc1 := match s1 with alpha => nocc_act_alpha_ d
                           | beta => nocc_act_beta_ d end in
  let spin2 := match s2 with alpha => obs_mosym_alpha_ d
                           | beta => obs_mosym_beta_ d end in
  let nocc2 := match s2 with alpha => nocc_act_alpha_ d
                           | beta => nocc_act_beta_ d end in
  let first1 := match ov1 with occ => 0 | vir => nocc1 end in
  let last1 := match ov1 with occ => nocc1 | vir => nmo_ d end in
  let first2 := match ov2 with occ => 0 | vir => nocc2 end in
  let last2 := match ov2 with occ => nocc2 | vir => nmo_ d end in
  let first3 := match ov3 with occ => 0 | vir => nocc1 end in
  let last3 := match ov3 with occ => nocc1 | vir => nmo_ d end in
  let first4 := match ov4 with occ => 0 | vir => nocc2 end in
  let last4 := match ov4 with occ => nocc2 | vir => nmo_ d end in
  t1 ← make_trange1 spin1 first1 last1;
  t2 ← make_trange1 spin2 first2 last2;
  t3 ← make_trange1 spin1 first3 last3;
  t4 ← make_trange1 spin2 first4 last4;
  Some [t1; t2; t3; t4].

End input_data_trange.

Arguments InputData : clear implicits.

(** ** input_data.cpp: the ranges constructed *)

(** Modelled from the spec: the constructor of [TiledRange1] from a
    sequence of boundaries, "contract: boundaries strictly increasing"; a
    sequence that breaks the contract gives no range. *)
Definition TiledRange1_new (tiles : list nat) : option TiledRange1 :=
  if decide (StronglySorted lt tiles)
  then Some (MkTiledRange1 (Z.of_nat <$> tiles))
  else None.

Section input_data_ranges.
Context {V : Type} `{EqDecision V}.

(** [InputData::make_trange1(begin, first, last)] up to its value: the
    boundaries of [make_trange1] handed to the constructor,
    [return TiledArray::TiledRange1(tiles.begin(), tiles.end())]. *)
Definition make_trange1_range (labels : list V) (first last : nat)
    : option TiledRange1 :=
  tiles ← make_trange1 labels first last;
  TiledRange1_new tiles.

(** [InputData::trange(s, ov1, ov2)] with the two elements of [tr_list]
    constructed. *)
Definition trange_ranges (d : InputData V) (s : Spin) (ov1 ov2 : RangeOV)
    : option (list TiledRange1) :=
  let spin := match s with alpha => obs_mosym_alpha_ d
                         | beta => obs_mosym_beta_ d end in
  let nocc := match s with alpha => nocc_act_alpha_ d
                         | beta => nocc_act_beta_ d end in
  let first1 := match ov1 with occ => 0 | vir => nocc end in
  let last1 := match ov1 with occ => nocc | vir => nmo_ d end in
  let first2 := match ov2 with occ => 0 | vir => nocc end in
  let last2 := match ov2 with occ => nocc | vir => nmo_ d end in
  t1 ← make_trange1_range spin first1 last1;
  t2 ← make_trange1_range spin first2 last2;
  Some [t1; t2].

End input_data_ranges.

(** ** tile.h: shared ownership and serialization *)

(** [std::shared_ptr<tensor_type>] with the objects it points to kept in a
    store: a pointer is a position in the store, [std::make_shared] puts its
    object at the next free position, and a copy of a pointer is the same
    position.  An object whose last pointer is gone stays in the store,
    where nothing reaches it. *)
Module shared.

Definition ptr : Type := nat.

(** [Tile<T>] as the pointer it holds; a default-constructed tile holds the
    null pointer. *)
Record Tile := MkTile { pimpl_ : option ptr }.

(** An item of an archive, as [Tile::serialize] writes and reads them: the
    flag of an empty tile, and a tensor (written and read by the tensor
    type's own serialization, which is not among the sources). *)
Inductive archive_item (T : Type) :=
  | ar_bool (b : bool)
  | ar_tensor (t : T).
Arguments ar_bool {T} _.
Arguments ar_tensor {T} _.

Section ops.
Context {T : Type}.

Definition store : Type := list T.

Definition make_shared (h : store) (x : T) : ptr * store :=
  (length h, h ++ [x]).

(** [Tile() = default]. *)
Definition Tile_default : Tile := MkTile None.

(** [Tile(const Tile_&) = default], [operator=(const Tile_&) = default]. *)
Definition Tile_copy (other : Tile) : Tile := MkTile (pimpl_ other).

(** [explicit Tile(const tensor_type& tensor)]. *)
Definition Tile_new (h : store) (x : T) : Tile * store :=
  let '(p, h') := make_shared h x in (MkTile (Some p), h').

(** [tensor()]: [*pimpl_]. *)
Definition tensor (h : store) (t : Tile) : option T :=
  p ← pimpl_ t; h !! p.

(** [operator=(const tensor_type& tensor)]: [*pimpl_ = tensor]. *)
Definition assign (h : store) (t : Tile) (x : T) : option store :=
  p ← pimpl_ t;
  _ ← h !! p;
  Some (<[p := x]> h).

(** [detail::make_tile(t)]. *)
Definition make_tile (h : store) (x : T) : Tile * store := Tile_new h x.

(** [clone(arg)]: [Tile<Arg>(clone(arg.tensor()))]; the clone of a tensor is
    a tensor of its own with the same content. *)
Definition clone (h : store) (arg : Tile) : option (Tile * store) :=
  x ← tensor h arg;
  Some (Tile_new h x).

(** The tile functions that return a new tile and whose declared result
    type is that of the tensor function they call, such as
    [add(left, right)], [mult(left, right)] and [subt(left, right, factor)]:
    [detail::make_tile(f(left.tensor(), right.tensor()))], with the further
    arguments passed on, for the tensor function [f] of the same name. *)
Definition binary_tile (f : T → T → option T) (h : store)
    (left right : Tile) : option (Tile * store) :=
  l ← tensor h left;
  r ← tensor h right;
  t ← f l r;
  Some (make_tile h t).

(** The tile functions that work in place, such as [subt_to(result, arg)]:
    [f_to(result.tensor(), arg.tensor()); return result;], where the tensor
    function [f_to] leaves its result in its first argument. *)
Definition binary_tile_to (f_to : T → T → option T) (h : store)
    (result arg : Tile) : option (Tile * store) :=
  r ← tensor h result;
  a ← tensor h arg;
  r' ← f_to r a;
  p ← pimpl_ result;
  Some (result, <[p := r']> h).

(** [serialize(ar)] for an output archive; [ar] holds what has been written
    so far. *)
Definition serialize_out (h : store) (t : Tile)
    (ar : list (archive_item T)) : option (list (archive_item T)) :=
  let empty := negb (bool_decide (is_Some (pimpl_ t))) in
  let ar := ar ++ [ar_bool empty] in
  if negb empty then
    x ← tensor h t;
    Some (ar ++ [ar_tensor x])
  else Some ar.

(** [serialize(ar)] for an input archive; [ar] holds what is still to be
    read, and an item of another type than the one asked for gives no
    result.  The tile read replaces the tile the function is called on. *)
Definition serialize_in (h : store) (ar : list (archive_item T))
    : option (Tile * store * list (archive_item T)) :=
  match ar with
  | ar_bool empty :: ar =>
      if negb empty then
        match ar with
        | ar_tensor x :: ar =>
            let '(p, h') := make_shared h x in
            Some (MkTile (Some p), h', ar)
        | _ => None
        end
      else Some (MkTile None, h, ar)
  | _ => None
  end.

End ops.

Arguments store : clear implicits.

End shared.

(** What a tile of the store stands for: the tile that holds its tensor. *)
Definition tile_value {T} (h : shared.store T) (t : shared.Tile) : Tile T :=
  MkTile (shared.tensor h t).

(** ** conversions.cpp: the random tiles of the fixture *)

(** [set_random(t)]: [t = GlobalFixture::world->rand() % 101], for the
    integer [rand] that the generator returned; [%] truncates towards
    zero. *)
Definition set_random (rand : Z) : Z := Z.rem rand 101.

(** [make_rand_tile<Tile>(r)] for [TensorI]: a tile over the range [r] whose
    elements are set in increasing order from the draws of the generator;
    [rand i] is its [i]-th draw and [next] the number of draws made before
    the call.  Returns the tile and the number of draws made after it. *)
Definition make_rand_tile (rand : nat → Z) (next : nat) (r : list nat)
    : Tensor Z * nat :=
  (MkTensor r ((λ i, set_random (rand (next + i))) <$> seq 0 (volume r)),
   next + volume r).

(** * Properties *)

(** ** Arrays and loops *)

Section array_facts.
Context {T : Type}.
Implicit Types (a : array T) (i j : nat) (v x : T).

Lemma load_Some a i x : load a i = Some x ↔ cells a !! i = Some (Some x).
Proof.
  unfold load. destruct (cells a !! i) as [[y|]|]; split; intros H;
    try discriminate; congruence.
Qed.

Lemma load_of_list (l : list T) i : load (of_list l) i = l !! i.
Proof.
  unfold load, of_list. simpl. rewrite list_lookup_fmap.
  by destruct (l !! i).
Qed.

Lemma store_Some a i v :
  i < length (cells a) →
  store a i v = Some (Array (<[i := Some v]> (cells a)) (written a ++ [i])).
Proof. intros H. unfold store. by rewrite decide_True. Qed.

Lemma store_None a i v : length (cells a) ≤ i → store a i v = None.
Proof. intros H. unfold store. rewrite decide_False; [done | lia]. Qed.

End array_facts.

Lemma for_loop_invariant {S : Type} (Inv : S → Prop) (m : S → nat)
    (cond : S → bool) (body : S → option S) :
  (∀ s, Inv s → cond s = true →
        ∃ s', body s = Some s' ∧ Inv s' ∧ m s' < m s) →
  ∀ fuel s, Inv s → m s ≤ fuel →
    ∃ s', for_loop fuel cond body s = Some s' ∧ Inv s' ∧ cond s' = false.
Proof.
  intros Hstep fuel. induction fuel as [|fuel IH]; intros s HI Hm; simpl.
  - destruct (cond s) eqn:Hc; [|eauto].
    destruct (Hstep s HI Hc) as (s' & _ & _ & Hlt). lia.
  - destruct (cond s) eqn:Hc; [|eauto].
    destruct (Hstep s HI Hc) as (s' & -> & HI' & Hlt). simpl.
    apply IH; [done | lia].
Qed.

Lemma for_loop_exit {S : Type} (fuel : nat) (cond : S → bool)
    (body : S → option S) (s : S) :
  cond s = false → for_loop fuel cond body s = Some s.
Proof. intros Hc. destruct fuel; simpl; by rewrite Hc. Qed.

(** ** vector_op.h: the block limit *)

Lemma index_mask_eq : index_mask = (2 ^ 64 - 8)%Z.
Proof. reflexivity. Qed.

Lemma land_index_mask (n : Z) :
  (0 ≤ n < 2 ^ 64)%Z → Z.land n index_mask = (8 * (n / 8))%Z.
Proof.
  intros Hn. rewrite index_mask_eq.
  replace (2 ^ 64 - 8)%Z with (Z.ldiff (Z.ones 64) (Z.ones 3)) by reflexivity.
  replace (8 * (n / 8))%Z with (Z.shiftl (Z.shiftr n 3) 3)
    by (rewrite Z.shiftl_mul_pow2, Z.shiftr_div_pow2 by lia;
        change (2 ^ 3)%Z with 8%Z; lia).
  assert (Hn' : Z.land n (Z.ones 64) = n).
  { rewrite Z.land_ones by lia. apply Z.mod_small. lia. }
  apply Z.bits_inj'. intros m Hm.
  rewrite Z.land_spec, Z.ldiff_spec.
  destruct (decide (m < 3)%Z) as [Hlow|Hhigh].
  - rewrite (Z.ones_spec_low 3 m) by lia.
    rewrite Z.shiftl_spec_low by lia.
    by destruct (Z.testbit n m), (Z.testbit (Z.ones 64) m).
  - rewrite (Z.ones_spec_high 3 m) by lia.
    rewrite Z.shiftl_spec by lia. rewrite Z.shiftr_spec by lia.
    replace (m - 3 + 3)%Z with m by lia.
    rewrite <- Hn' at 2. rewrite Z.land_spec.
    by destruct (Z.testbit n m), (Z.testbit (Z.ones 64) m).
Qed.

(** ** vector_op.h: the unrolled block steps *)

Section unwind_facts.
Import VectorOpUnwind.

Lemma offset_eq N : offset N = 7 - N.
Proof. unfold offset, TILEDARRAY_LOOP_UNWIND. lia. Qed.

Lemma copy_ok {A} (N : nat) (arg res : array A) (ab rb : nat) :
  N < 8 →
  (∀ k, 7 - N ≤ k < 8 → is_Some (load arg (ab + k))) →
  rb + 8 ≤ length (cells res) →
  ∃ res', copy N arg ab res rb = Some res' ∧
    length (cells res') = length (cells res) ∧
    (∀ k, 7 - N ≤ k < 8 → cells res' !! (rb + k) = cells arg !! (ab + k)) ∧
    (∀ j, j < rb + (7 - N) ∨ rb + 8 ≤ j → cells res' !! j = cells res !! j) ∧
    written res' = written res ++ seq (rb + (7 - N)) (S N).
Proof.
  revert res. induction N as [|N IH]; intros res HN Harg Hres.
  - simpl. rewrite offset_eq. change (7 - 0) with 7 in *.
    destruct (Harg 7) as [x Hx]; [lia|]. rewrite Hx. simpl.
    rewrite store_Some by lia. eexists; split; [done|]. simpl.
    apply load_Some in Hx.
    split_and!.
    + by rewrite length_insert.
    + intros k Hk. assert (k = 7) as -> by lia.
      rewrite list_lookup_insert_eq by lia. done.
    + intros j Hj. rewrite list_lookup_insert_ne by lia. done.
    + done.
  - simpl. rewrite offset_eq.
    destruct (Harg (7 - S N)) as [x Hx]; [lia|]. rewrite Hx. simpl.
    rewrite store_Some by lia. simpl.
    apply load_Some in Hx.
    set (res1 := Array _ _).
    destruct (IH res1) as (res' & -> & Hlen & Hcp & Hfr & Hw).
    { lia. }
    { intros k Hk. apply Harg. lia. }
    { subst res1. simpl. rewrite length_insert. lia. }
    eexists; split; [done|].
    subst res1; simpl in *. rewrite length_insert in Hlen.
    split_and!.
    + done.
    + intros k Hk. destruct (decide (k = 7 - S N)) as [->|Hne].
      * rewrite Hfr by lia. rewrite list_lookup_insert_eq by lia. done.
      * apply Hcp. lia.
    + intros j Hj. rewrite Hfr by lia.
      rewrite list_lookup_insert_ne by lia. done.
    + rewrite Hw, <- app_assoc. f_equal. simpl.
      replace (7 - N) with (S (6 - N)) by lia.
      by rewrite Nat.add_succ_r.
Qed.

Lemma load_insert_eq {A} (c : list (option A)) (w : list nat) i x :
  i < length c → load (Array (<[i := Some x]> c) w) i = Some x.
Proof.
  intros H. apply load_Some. simpl. by rewrite list_lookup_insert_eq.
Qed.

Lemma load_insert_ne {A} (c : list (option A)) (w w' : list nat) i j x :
  i ≠ j → load (Array (<[i := Some x]> c) w) j = load (Array c w') j.
Proof.
  intros H. unfold load. simpl. by rewrite list_lookup_insert_ne.
Qed.

Lemma load_frame {A} (a b : array A) j :
  cells a !! j = cells b !! j → load a j = load b j.
Proof. unfold load. by intros ->. Qed.

Lemma binary_ok {L R T} (N : nat) (left : array L) (right : array R)
    (res : array T) (op : L → R → T) :
  N < 8 →
  (∀ k, 7 - N ≤ k < 8 → is_Some (load left k)) →
  (∀ k, 7 - N ≤ k < 8 → is_Some (load right k)) →
  8 ≤ length (cells res) →
  ∃ res', binary N left right res op = Some res' ∧
    length (cells res') = length (cells res) ∧
    (∀ k x y, 7 - N ≤ k < 8 → load left k = Some x → load right k = Some y →
              load res' k = Some (op x y)) ∧
    (∀ j, j < 7 - N ∨ 8 ≤ j → cells res' !! j = cells res !! j).
Proof.
  revert res. induction N as [|N IH]; intros res HN Hl Hr Hres.
  - simpl. rewrite offset_eq. change (7 - 0) with 7 in *.
    destruct (Hl 7) as [x Hx]; [lia|]. destruct (Hr 7) as [y Hy]; [lia|].
    rewrite Hx, Hy. simpl. rewrite store_Some by lia.
    eexists; split; [done|]. simpl. split_and!.
    + by rewrite length_insert.
    + intros k x' y' Hk Hx' Hy'. assert (k = 7) as -> by lia.
      rewrite load_insert_eq by lia. congruence.
    + intros j Hj. by rewrite list_lookup_insert_ne by lia.
  - simpl. rewrite offset_eq.
    destruct (Hl (7 - S N)) as [x Hx]; [lia|].
    destruct (Hr (7 - S N)) as [y Hy]; [lia|].
    rewrite Hx, Hy. simpl. rewrite store_Some by lia. simpl.
    set (res1 := Array _ _).
    destruct (IH res1) as (res' & -> & Hlen & Hop & Hfr).
    { lia. }
    { intros k Hk. apply Hl. lia. }
    { intros k Hk. apply Hr. lia. }
    { subst res1. simpl. rewrite length_insert. lia. }
    eexists; split; [done|].
    subst res1; simpl in *. rewrite length_insert in Hlen.
    split_and!.
    + done.
    + intros k x' y' Hk Hx' Hy'. destruct (decide (k = 6 - N)) as [->|Hne].
      * apply load_Some. rewrite Hfr by lia.
        rewrite list_lookup_insert_eq by lia. congruence.
      * eapply Hop; [lia|done..].
    + intros j Hj. rewrite Hfr by lia.
      by rewrite list_lookup_insert_ne by lia.
Qed.

Lemma binary_to_ok {A T} (N : nat) (arg : array A) (res : array T)
    (op : T → A → T) :
  N < 8 →
  (∀ k, 7 - N ≤ k < 8 → is_Some (load arg k)) →
  (∀ k, 7 - N ≤ k < 8 → is_Some (load res k)) →
  ∃ res', binary_to N arg res op = Some res' ∧
    length (cells res') = length (cells res) ∧
    (∀ k a r, 7 - N ≤ k < 8 → load arg k = Some a → load res k = Some r →
              load res' k = Some (op r a)) ∧
    (∀ j, j < 7 - N ∨ 8 ≤ j → cells res' !! j = cells res !! j).
Proof.
  revert res. induction N as [|N IH]; intros res HN Ha Hr.
  - simpl. rewrite offset_eq. change (7 - 0) with 7 in *.
    destruct (Ha 7) as [a Hx]; [lia|]. destruct (Hr 7) as [r Hy]; [lia|].
    rewrite Hx, Hy. simpl.
    assert (7 < length (cells res)) as Hlen.
    { apply load_Some in Hy. by eapply lookup_lt_Some. }
    rewrite store_Some by lia.
    eexists; split; [done|]. simpl. split_and!.
    + by rewrite length_insert.
    + intros k x' y' Hk Hx' Hy'. assert (k = 7) as -> by lia.
      rewrite load_insert_eq by lia. congruence.
    + intros j Hj. by rewrite list_lookup_insert_ne by lia.
  - simpl. rewrite offset_eq.
    destruct (Ha (7 - S N)) as [a Hx]; [lia|].
    destruct (Hr (7 - S N)) as [r Hy]; [lia|].
    rewrite Hx, Hy. simpl.
    assert (7 - S N < length (cells res)) as Hlt.
    { apply load_Some in Hy. by eapply lookup_lt_Some. }
    rewrite store_Some by lia. simpl.
    set (res1 := Array _ _).
    assert (Hsame : ∀ k, 7 - N ≤ k < 8 → load res1 k = load res k).
    { intros k Hk. apply load_frame. subst res1. simpl.
      by rewrite list_lookup_insert_ne by lia. }
    destruct (IH res1) as (res' & -> & Hlen & Hop & Hfr).
    { lia. }
    { intros k Hk. apply Ha. lia. }
    { intros k Hk. rewrite Hsame by lia. apply Hr. lia. }
    eexists; split; [done|].
    split_and!.
    + rewrite Hlen. subst res1. simpl. by rewrite length_insert.
    + intros k x' y' Hk Hx' Hy'. destruct (decide (k = 7 - S N)) as [->|Hne].
      * apply load_Some. rewrite Hfr by lia. subst res1. simpl.
        rewrite list_lookup_insert_eq by lia. congruence.
      * eapply Hop; [lia|done|]. rewrite Hsame by lia. done.
    + intros j Hj. rewrite Hfr by lia. subst res1. simpl.
      by rewrite list_lookup_insert_ne by lia.
Qed.

End unwind_facts.

(** ** vector_op.h: [binary_vector_op] *)

Lemma size_wrap_small (z : Z) : (0 ≤ z < 2 ^ 64)%Z → size_wrap z = z.
Proof. intros H. unfold size_wrap. by apply Z.mod_small. Qed.

Lemma filled_0 {T} (f : nat → option T) (res0 : array T) :
  filled f res0 0 res0.
Proof.
  unfold filled. split_and!; [done| intros; lia | done |].
  simpl. by rewrite app_nil_r.
Qed.

Lemma filled_unique {T} (f : nat → option T) (res0 out1 out2 : array T) k :
  (∀ j, j < k → is_Some (f j)) →
  filled f res0 k out1 → filled f res0 k out2 → out1 = out2.
Proof.
  intros Hf (Hl1 & Hv1 & Hf1 & Hw1) (Hl2 & Hv2 & Hf2 & Hw2).
  destruct out1 as [c1 w1], out2 as [c2 w2]; simpl in *.
  f_equal; [|congruence].
  apply list_eq. intros j. destruct (decide (j < k)) as [Hlt|Hge].
  - destruct (Hf j Hlt) as [v Hv].
    specialize (Hv1 j Hlt). specialize (Hv2 j Hlt).
    rewrite Hv in Hv1, Hv2.
    apply load_Some in Hv1, Hv2. simpl in *. congruence.
  - rewrite Hf1, Hf2 by lia. done.
Qed.

(** Storing [f k] at [k] extends the filled prefix by one cell. *)
Lemma filled_store {T} (f : nat → option T) (res0 out : array T) k v :
  k < length (cells res0) → f k = Some v →
  filled f res0 k out →
  ∃ out', store out k v = Some out' ∧ filled f res0 (S k) out'.
Proof.
  intros Hk Hv (Hl & Hval & Hfr & Hw).
  rewrite store_Some by lia. eexists; split; [done|].
  unfold filled; simpl. split_and!.
  - by rewrite length_insert.
  - intros j Hj. destruct (decide (j = k)) as [->|Hne].
    + rewrite load_insert_eq by lia. done.
    + rewrite (load_insert_ne _ _ (written out)) by lia.
      destruct out; simpl. apply Hval. lia.
  - intros j Hj. rewrite list_lookup_insert_ne by lia. apply Hfr. lia.
  - rewrite Hw, <- app_assoc. f_equal.
    change (0 :: seq 1 k) with (seq 0 (S k)). by rewrite seq_S.
Qed.

(** Copying a block that holds [f k .. f (k + 7)] to [result + k] extends the
    filled prefix by eight cells. *)
Lemma filled_copy {T} (f : nat → option T) (res0 out blk : array T) k :
  k + 8 ≤ length (cells res0) →
  (∀ o, o < 8 → is_Some (f (k + o)) ∧ load blk o = f (k + o)) →
  filled f res0 k out →
  ∃ out', VectorOpUnwind.copy VecOpUnwindN blk 0 out k = Some out' ∧
          filled f res0 (k + 8) out'.
Proof.
  intros Hk Hblk (Hl & Hval & Hfr & Hw).
  destruct (copy_ok 7 blk out 0 k) as (out' & Hc & Hlen & Hcp & Hfr' & Hw').
  { lia. }
  { intros o Ho. simpl. destruct (Hblk o) as [Hs ->]; [lia|done]. }
  { lia. }
  exists out'. split; [exact Hc|].
  unfold filled. split_and!.
  - lia.
  - intros j Hj. destruct (decide (j < k)) as [Hlt|Hge].
    + rewrite <- Hval by lia. apply load_frame. apply Hfr'. lia.
    + assert (∃ o, j = k + o ∧ o < 8) as (o & -> & Ho)
        by (exists (j - k); lia).
      destruct (Hblk o) as [_ <-]; [lia|].
      unfold load. rewrite Hcp by lia. done.
  - intros j Hj. rewrite Hfr' by lia. apply Hfr. lia.
  - rewrite Hw', Hw, <- app_assoc. f_equal.
    replace (k + (7 - 7)) with (0 + k) by lia.
    by rewrite seq_app.
Qed.

(** Copying eight values of a list into a fresh local block. *)
Lemma copy_to_block {A} (l : list A) (w : list nat) k :
  k + 8 ≤ length l →
  ∃ blk, VectorOpUnwind.copy VecOpUnwindN (Array (Some <$> l) w) k
           (local_array TILEDARRAY_LOOP_UNWIND) 0 = Some blk ∧
         length (cells blk) = 8 ∧
         ∀ o, o < 8 → load blk o = l !! (k + o).
Proof.
  intros Hk.
  destruct (copy_ok 7 (Array (Some <$> l) w) (local_array 8) k 0)
    as (blk & Hc & Hlen & Hcp & _ & _).
  { lia. }
  { intros o Ho. unfold load. simpl. rewrite list_lookup_fmap.
    destruct (lookup_lt_is_Some_2 l (k + o)) as [x ->]; [lia|]. by eexists. }
  { simpl. lia. }
  exists blk. split; [exact Hc|]. split.
  { rewrite Hlen. done. }
  intros o Ho. pose proof (Hcp o ltac:(lia)) as Ho'. simpl in Ho'.
  unfold load. rewrite Ho', list_lookup_fmap. by destruct (l !! (k + o)).
Qed.

Section binary_vector_op_facts.
Context {L R T : Type} (op : L → R → T) (l : list L) (r : list R).
Context (res0 : array T) (n : Z).
Hypothesis Hn : (0 ≤ n < 2 ^ 64)%Z.
Hypothesis Hl : Z.to_nat n ≤ length l.
Hypothesis Hr : Z.to_nat n ≤ length r.
Hypothesis Hres : Z.to_nat n ≤ length (cells res0).

Local Abbreviation f := (λ j : nat, zip_with op l r !! j).
Local Arguments VectorOpUnwind.copy : simpl never.
Local Arguments VectorOpUnwind.binary : simpl never.
Local Arguments local_array : simpl never.
Local Arguments VecOpUnwindN : simpl never.
Local Arguments TILEDARRAY_LOOP_UNWIND : simpl never.

Lemma zip_lookup_Some j :
  j < Z.to_nat n →
  ∃ x y, l !! j = Some x ∧ r !! j = Some y ∧ f j = Some (op x y).
Proof.
  intros Hj.
  destruct (lookup_lt_is_Some_2 l j) as [x Hx]; [lia|].
  destruct (lookup_lt_is_Some_2 r j) as [y Hy]; [lia|].
  exists x, y. split_and!; [done..|].
  rewrite lookup_zip_with, Hx. simpl. by rewrite Hy.
Qed.

Lemma binary_block_step (i : Z) (out : array T) :
  (0 ≤ i)%Z → (i + 8 ≤ n)%Z →
  filled f res0 (Z.to_nat i) out →
  ∃ out', binary_block (of_list l) (of_list r) op (i, out)
            = Some ((i + 8)%Z, out') ∧
          filled f res0 (Z.to_nat (i + 8)) out'.
Proof.
  intros Hi Hi8 Hfill. unfold binary_block, of_list.
  destruct (copy_to_block l [] (Z.to_nat i)) as (lb & -> & Hlb_len & Hlb);
    [lia|]. simpl.
  destruct (copy_to_block r [] (Z.to_nat i)) as (rb & -> & Hrb_len & Hrb);
    [lia|]. simpl.
  destruct (binary_ok 7 lb rb (local_array 8) op)
    as (blk & Hb & _ & Hop & _).
  { lia. }
  { intros o Ho. rewrite Hlb by lia. apply lookup_lt_is_Some_2. lia. }
  { intros o Ho. rewrite Hrb by lia. apply lookup_lt_is_Some_2. lia. }
  { done. }
  change VecOpUnwindN with 7. change TILEDARRAY_LOOP_UNWIND with 8.
  rewrite Hb. simpl.
  destruct (filled_copy f res0 out blk (Z.to_nat i))
    as (out' & Hc & Hfill'); [lia| |done|].
  { intros o Ho.
    destruct (zip_lookup_Some (Z.to_nat i + o)) as (x & y & Hx & Hy & Hf);
      [lia|].
    rewrite Hf. split; [by eexists|].
    apply Hop; [lia| |]; by rewrite ?Hlb, ?Hrb by lia. }
  change VecOpUnwindN with 7 in Hc. rewrite Hc. simpl.
  exists out'. split.
  - rewrite size_wrap_small by (simpl; lia). done.
  - replace (Z.to_nat (i + 8)) with (Z.to_nat i + 8) by lia. done.
Qed.

Lemma binary_scalar_step (i : Z) (out : array T) :
  (0 ≤ i < n)%Z →
  filled f res0 (Z.to_nat i) out →
  ∃ out', binary_scalar (of_list l) (of_list r) op (i, out)
            = Some ((i + 1)%Z, out') ∧
          filled f res0 (Z.to_nat (i + 1)) out'.
Proof.
  intros Hi Hfill. unfold binary_scalar.
  destruct (zip_lookup_Some (Z.to_nat i)) as (x & y & Hx & Hy & Hf); [lia|].
  rewrite !load_of_list, Hx, Hy. simpl.
  destruct (filled_store f res0 out (Z.to_nat i) (op x y))
    as (out' & -> & Hfill'); [lia|done|done|].
  simpl. exists out'. split.
  - rewrite size_wrap_small by lia. done.
  - replace (Z.to_nat (i + 1)) with (S (Z.to_nat i)) by lia. done.
Qed.

Lemma binary_vector_op_filled :
  ∃ out, binary_vector_op n (of_list l) (of_list r) res0 op = Some out ∧
         filled f res0 (Z.to_nat n) out.
Proof.
  unfold binary_vector_op. rewrite land_index_mask by done.
  assert (Hq : (0 ≤ n / 8 ∧ 8 * (n / 8) ≤ n)%Z)
    by (Z.div_mod_to_equations; lia).
  remember (n / 8)%Z as q eqn:Hq0. clear Hq0.
  remember (8 * q)%Z as nx eqn:Hnx.
  destruct (for_loop_invariant
    (λ s : Z * array T,
       (∃ a, s.1 = 8 * a ∧ 0 ≤ a ≤ q)%Z ∧ filled f res0 (Z.to_nat s.1) s.2)
    (λ s, Z.to_nat (nx - s.1))
    (λ s, bool_decide (s.1 < nx)%Z)
    (binary_block (of_list l) (of_list r) op)) with (fuel := Z.to_nat n)
    (s := (0%Z, res0)) as (s1 & -> & [(a & Ha & Hale) Hfill1] & Hc1).
  { intros [i out] [(a & Ha & Hale) Hfill] Hc. cbn [fst snd] in *.
    apply bool_decide_eq_true in Hc.
    destruct (binary_block_step i out) as (out' & -> & Hfill');
      [lia | lia | done |].
    eexists; split; [done|]. cbn [fst snd]. split; [split|].
    - exists (a + 1)%Z. lia.
    - done.
    - lia. }
  { simpl. split; [exists 0%Z; lia | apply filled_0]. }
  { simpl. lia. }
  simpl. apply bool_decide_eq_false in Hc1.
  destruct (for_loop_invariant
    (λ s : Z * array T, (0 ≤ s.1 ≤ n)%Z ∧ filled f res0 (Z.to_nat s.1) s.2)
    (λ s, Z.to_nat (n - s.1))
    (λ s, bool_decide (s.1 < n)%Z)
    (binary_scalar (of_list l) (of_list r) op)) with (fuel := Z.to_nat n)
    (s := s1) as (s2 & -> & [Hs2 Hfill2] & Hc2).
  { intros [i out] [Hi Hfill] Hc. cbn [fst snd] in *.
    apply bool_decide_eq_true in Hc.
    destruct (binary_scalar_step i out) as (out' & -> & Hfill');
      [lia | done |].
    eexists; split; [done|]. cbn [fst snd]. split; [split|]; [lia | done | lia]. }
  { split; [lia | done]. }
  { lia. }
  simpl. apply bool_decide_eq_false in Hc2.
  exists s2.2. split; [done|].
  replace n with s2.1 at 1 by lia. done.
Qed.

Lemma naive_binary_filled :
  ∃ out, naive_binary (Z.to_nat n) (of_list l) (of_list r) res0 op = Some out ∧
         filled f res0 (Z.to_nat n) out.
Proof.
  assert (∀ k, k ≤ Z.to_nat n →
    ∃ out, naive_binary k (of_list l) (of_list r) res0 op = Some out ∧
           filled f res0 k out) as H; [|by apply H].
  induction k as [|k IH]; intros Hk.
  - exists res0. split; [done | apply filled_0].
  - destruct IH as (out & Hout & Hfill); [lia|].
    simpl. rewrite Hout. simpl.
    destruct (zip_lookup_Some k) as (x & y & Hx & Hy & Hf); [lia|].
    rewrite !load_of_list, Hx, Hy. simpl.
    apply (filled_store f res0); [lia | done | done].
Qed.

End binary_vector_op_facts.

Section binary_vector_op_to_facts.
Context {L T : Type} (op : T → L → T) (l : list L).
Context (res0 : array T) (n : Z).
Hypothesis Hn : (0 ≤ n < 2 ^ 64)%Z.
Hypothesis Hl : Z.to_nat n ≤ length l.
Hypothesis Hres : ∀ j, j < Z.to_nat n → is_Some (load res0 j).

Local Abbreviation g :=
  (λ j : nat, r ← load res0 j; a ← l !! j; Some (op r a)).
Local Arguments VectorOpUnwind.copy : simpl never.
Local Arguments VectorOpUnwind.binary_to : simpl never.
Local Arguments local_array : simpl never.
Local Arguments VecOpUnwindN : simpl never.
Local Arguments TILEDARRAY_LOOP_UNWIND : simpl never.

Lemma res0_length : Z.to_nat n ≤ length (cells res0).
Proof.
  destruct (decide (Z.to_nat n = 0)) as [->|Hne]; [lia|].
  destruct (Hres (Z.to_nat n - 1)) as [x Hx]; [lia|].
  apply load_Some, lookup_lt_Some in Hx. lia.
Qed.

Lemma to_lookup_Some j :
  j < Z.to_nat n →
  ∃ x a, load res0 j = Some x ∧ l !! j = Some a ∧ g j = Some (op x a).
Proof.
  intros Hj.
  destruct (Hres j Hj) as [x Hx].
  destruct (lookup_lt_is_Some_2 l j) as [a Ha]; [lia|].
  exists x, a. split_and!; [done..|].
  rewrite Hx. simpl. by rewrite Ha.
Qed.

Lemma binary_to_block_step (i : Z) (out : array T) :
  (0 ≤ i)%Z → (i + 8 ≤ n)%Z →
  filled g res0 (Z.to_nat i) out →
  ∃ out', binary_to_block (of_list l) op (i, out) = Some ((i + 8)%Z, out') ∧
          filled g res0 (Z.to_nat (i + 8)) out'.
Proof.
  intros Hi Hi8 Hfill. unfold binary_to_block, of_list.
  pose proof res0_length as Hlen0.
  pose proof Hfill as (Hlen & _ & Hfr & _).
  assert (Hsame : ∀ o, o < 8 → load out (Z.to_nat i + o)
                                = load res0 (Z.to_nat i + o)).
  { intros o Ho. apply load_frame, Hfr. lia. }
  destruct (copy_ok 7 out (local_array 8) (Z.to_nat i) 0)
    as (rb & Hrb & Hrb_len & Hrb_cp & _ & _).
  { lia. }
  { intros o Ho. rewrite Hsame by lia. apply Hres. lia. }
  { done. }
  change VecOpUnwindN with 7. change TILEDARRAY_LOOP_UNWIND with 8.
  rewrite Hrb. simpl.
  destruct (copy_to_block l [] (Z.to_nat i)) as (ab & Hab & Hab_len & Hab_v);
    [lia|].
  change VecOpUnwindN with 7 in Hab.
  change TILEDARRAY_LOOP_UNWIND with 8 in Hab.
  rewrite Hab. simpl.
  assert (Hrb_v : ∀ o, o < 8 → load rb o = load res0 (Z.to_nat i + o)).
  { intros o Ho. rewrite <- Hsame by lia. unfold load.
    pose proof (Hrb_cp o ltac:(lia)) as Ho'. simpl in Ho'. by rewrite Ho'. }
  destruct (binary_to_ok 7 ab rb op) as (blk & Hb & _ & Hop & _).
  { lia. }
  { intros o Ho. rewrite Hab_v by lia. apply lookup_lt_is_Some_2. lia. }
  { intros o Ho. rewrite Hrb_v by lia. apply Hres. lia. }
  rewrite Hb. simpl.
  destruct (filled_copy g res0 out blk (Z.to_nat i))
    as (out' & Hc & Hfill'); [lia| |done|].
  { intros o Ho.
    destruct (to_lookup_Some (Z.to_nat i + o)) as (x & a & Hx & Ha & Hg);
      [lia|].
    rewrite Hg. split; [by eexists|].
    apply Hop; [lia| |]; by rewrite ?Hab_v, ?Hrb_v by lia. }
  change VecOpUnwindN with 7 in Hc. rewrite Hc. simpl.
  exists out'. split.
  - rewrite size_wrap_small by (simpl; lia). done.
  - replace (Z.to_nat (i + 8)) with (Z.to_nat i + 8) by lia. done.
Qed.

Lemma binary_to_scalar_step (i : Z) (out : array T) :
  (0 ≤ i < n)%Z →
  filled g res0 (Z.to_nat i) out →
  ∃ out', binary_to_scalar (of_list l) op (i, out) = Some ((i + 1)%Z, out') ∧
          filled g res0 (Z.to_nat (i + 1)) out'.
Proof.
  intros Hi Hfill. unfold binary_to_scalar.
  pose proof res0_length as Hlen0.
  pose proof Hfill as (Hlen & _ & Hfr & _).
  destruct (to_lookup_Some (Z.to_nat i)) as (x & a & Hx & Ha & Hg); [lia|].
  rewrite (load_frame out res0) by (apply Hfr; lia).
  rewrite Hx, load_of_list, Ha. simpl.
  destruct (filled_store g res0 out (Z.to_nat i) (op x a))
    as (out' & -> & Hfill'); [lia|done|done|].
  simpl. exists out'. split.
  - rewrite size_wrap_small by lia. done.
  - replace (Z.to_nat (i + 1)) with (S (Z.to_nat i)) by lia. done.
Qed.

Lemma binary_vector_op_to_filled :
  ∃ out, binary_vector_op_to n (of_list l) res0 op = Some out ∧
         filled g res0 (Z.to_nat n) out.
Proof.
  unfold binary_vector_op_to. rewrite land_index_mask by done.
  assert (Hq : (0 ≤ n / 8 ∧ 8 * (n / 8) ≤ n)%Z)
    by (Z.div_mod_to_equations; lia).
  remember (n / 8)%Z as q eqn:Hq0. clear Hq0.
  remember (8 * q)%Z as nx eqn:Hnx.
  destruct (for_loop_invariant
    (λ s : Z * array T,
       (∃ a, s.1 = 8 * a ∧ 0 ≤ a ≤ q)%Z ∧ filled g res0 (Z.to_nat s.1) s.2)
    (λ s, Z.to_nat (nx - s.1))
    (λ s, bool_decide (s.1 < nx)%Z)
    (binary_to_block (of_list l) op)) with (fuel := Z.to_nat n)
    (s := (0%Z, res0)) as (s1 & -> & [(a & Ha & Hale) Hfill1] & Hc1).
  { intros [i out] [(a & Ha & Hale) Hfill] Hc. cbn [fst snd] in *.
    apply bool_decide_eq_true in Hc.
    destruct (binary_to_block_step i out) as (out' & -> & Hfill');
      [lia | lia | done |].
    eexists; split; [done|]. cbn [fst snd]. split; [split|].
    - exists (a + 1)%Z. lia.
    - done.
    - lia. }
  { simpl. split; [exists 0%Z; lia | apply filled_0]. }
  { simpl. lia. }
  simpl. apply bool_decide_eq_false in Hc1.
  destruct (for_loop_invariant
    (λ s : Z * array T, (0 ≤ s.1 ≤ n)%Z ∧ filled g res0 (Z.to_nat s.1) s.2)
    (λ s, Z.to_nat (n - s.1))
    (λ s, bool_decide (s.1 < n)%Z)
    (binary_to_scalar (of_list l) op)) with (fuel := Z.to_nat n)
    (s := s1) as (s2 & -> & [Hs2 Hfill2] & Hc2).
  { intros [i out] [Hi Hfill] Hc. cbn [fst snd] in *.
    apply bool_decide_eq_true in Hc.
    destruct (binary_to_scalar_step i out) as (out' & -> & Hfill');
      [lia | done |].
    eexists; split; [done|]. cbn [fst snd].
    split; [split|]; [lia | done | lia]. }
  { split; [lia | done]. }
  { lia. }
  simpl. apply bool_decide_eq_false in Hc2.
  exists s2.2. split; [done|].
  replace n with s2.1 at 1 by lia. done.
Qed.

Lemma naive_binary_to_filled :
  ∃ out, naive_binary_to (Z.to_nat n) (of_list l) res0 op = Some out ∧
         filled g res0 (Z.to_nat n) out.
Proof.
  pose proof res0_length as Hlen0.
  assert (∀ k, k ≤ Z.to_nat n →
    ∃ out, naive_binary_to k (of_list l) res0 op = Some out ∧
           filled g res0 k out) as H; [|by apply H].
  induction k as [|k IH]; intros Hk.
  - exists res0. split; [done | apply filled_0].
  - destruct IH as (out & Hout & Hfill); [lia|].
    simpl. rewrite Hout. simpl.
    pose proof Hfill as (Hlen & _ & Hfr & _).
    destruct (to_lookup_Some k) as (x & a & Hx & Ha & Hg); [lia|].
    rewrite (load_frame out res0) by (apply Hfr; lia).
    rewrite Hx, load_of_list, Ha. simpl.
    apply (filled_store g res0); [lia | done | done].
Qed.

End binary_vector_op_to_facts.

(** C9.  For a length [n] that fits [std::size_t] and arrays that hold at
    least [n] elements, the three-array [binary_vector_op] returns, and what
    it leaves in [result] is what the elementwise loop leaves there:
    [result[i] = op(left[i], right[i])] for every [i < n], the cells from [n]
    on untouched, and the stores made are those to [0, 1, ..., n - 1], one
    each.  The in-place overload does the same with
    [op(result[i], arg[i])]. *)
Theorem binary_vector_op_elementwise {L R T : Type}
    (op : L → R → T) (op_to : T → L → T) (n : Z)
    (left : list L) (right : list R) (result result_to : array T) :
  (0 ≤ n < 2 ^ 64)%Z →
  Z.to_nat n ≤ length left →
  Z.to_nat n ≤ length right →
  Z.to_nat n ≤ length (cells result) →
  (∀ i, i < Z.to_nat n → is_Some (load result_to i)) →
  (∃ out,
     binary_vector_op n (of_list left) (of_list right) result op = Some out ∧
     naive_binary (Z.to_nat n) (of_list left) (of_list right) result op
       = Some out ∧
     (∀ i x y, i < Z.to_nat n → left !! i = Some x → right !! i = Some y →
               load out i = Some (op x y)) ∧
     (∀ i, Z.to_nat n ≤ i → cells out !! i = cells result !! i) ∧
     written out = written result ++ seq 0 (Z.to_nat n)) ∧
  (∃ out,
     binary_vector_op_to n (of_list left) result_to op_to = Some out ∧
     naive_binary_to (Z.to_nat n) (of_list left) result_to op_to = Some out ∧
     (∀ i r a, i < Z.to_nat n → load result_to i = Some r →
               left !! i = Some a → load out i = Some (op_to r a)) ∧
     (∀ i, Z.to_nat n ≤ i → cells out !! i = cells result_to !! i) ∧
     written out = written result_to ++ seq 0 (Z.to_nat n)).
Proof.
  intros Hn Hl Hr Hres Hto. split.
  - destruct (binary_vector_op_filled op left right result n)
      as (out & Hout & Hfill); [done..|].
    destruct (naive_binary_filled op left right result n)
      as (out' & Hout' & Hfill'); [done..|].
    assert (out' = out) as ->.
    { eapply filled_unique; [|exact Hfill'|exact Hfill].
      intros j Hj.
      destruct (zip_lookup_Some op left right result n Hl Hr Hres j Hj)
        as (x & y & _ & _ & ->). by eexists. }
    exists out. destruct Hfill as (_ & Hval & Hfr & Hw).
    split_and!; [done | done | | done | done].
    intros i x y Hi Hx Hy. rewrite Hval by done.
    rewrite lookup_zip_with, Hx. simpl. by rewrite Hy.
  - destruct (binary_vector_op_to_filled op_to left result_to n)
      as (out & Hout & Hfill); [done..|].
    destruct (naive_binary_to_filled op_to left result_to n)
      as (out' & Hout' & Hfill'); [done..|].
    assert (out' = out) as ->.
    { eapply filled_unique; [|exact Hfill'|exact Hfill].
      intros j Hj.
      destruct (to_lookup_Some op_to left result_to n Hl Hto j Hj)
        as (x & y & _ & _ & ->). by eexists. }
    exists out. destruct Hfill as (_ & Hval & Hfr & Hw).
    split_and!; [done | done | | done | done].
    intros i r a Hi Hr' Ha. rewrite Hval by done.
    rewrite Hr'. simpl. by rewrite Ha.
Qed.

(** Eleven elements: one unrolled block and a remainder of three. *)
Lemma binary_vector_op_elementwise_witness :
  let left := [1; 2; 3; 4; 5; 6; 7; 8; 9; 10; 11] in
  let right := [10; 20; 30; 40; 50; 60; 70; 80; 90; 100; 110] in
  let result := local_array 12 in
  let result_to := of_list [2; 2; 2; 2; 2; 2; 2; 2; 2; 2; 2; 2] in
  (∃ out,
     binary_vector_op 11 (of_list left) (of_list right) result Nat.add
       = Some out ∧
     naive_binary 11 (of_list left) (of_list right) result Nat.add
       = Some out ∧
     (∀ i x y, i < 11 → left !! i = Some x → right !! i = Some y →
               load out i = Some (x + y)) ∧
     (∀ i, 11 ≤ i → cells out !! i = cells result !! i) ∧
     written out = written result ++ seq 0 11) ∧
  (∃ out,
     binary_vector_op_to 11 (of_list left) result_to Nat.mul = Some out ∧
     naive_binary_to 11 (of_list left) result_to Nat.mul = Some out ∧
     (∀ i r a, i < 11 → load result_to i = Some r →
               left !! i = Some a → load out i = Some (r * a)) ∧
     (∀ i, 11 ≤ i → cells out !! i = cells result_to !! i) ∧
     written out = written result_to ++ seq 0 11).
Proof.
  intros left right result result_to.
  apply (binary_vector_op_elementwise Nat.add Nat.mul 11
           left right result result_to).
  - lia.
  - simpl. lia.
  - simpl. lia.
  - simpl. lia.
  - intros i Hi. change (Z.to_nat 11) with 11 in Hi.
    do 11 (destruct i as [|i]; [by eexists|]). lia.
Defined.

(** ** vector_op.h: [scatter] and [gather] *)

Section scatter_gather_facts.
Import VectorOpUnwind.
Context {A : Type}.

(** [scatter] stores [arg[k]] at [result[(k - (7 - N)) * stride]] for every
    offset [k] it visits, and nothing else. *)
Lemma scatter_ok (N : nat) (arg res : array A) (ab rb stride : nat) :
  N < 8 → 1 ≤ stride →
  (∀ k, 7 - N ≤ k < 8 → is_Some (load arg (ab + k))) →
  rb + N * stride < length (cells res) →
  ∃ res', scatter N arg ab res rb stride = Some res' ∧
    length (cells res') = length (cells res) ∧
    (∀ k, 7 - N ≤ k < 8 →
          cells res' !! (rb + (k - (7 - N)) * stride) = cells arg !! (ab + k)) ∧
    (∀ j, (∀ k, 7 - N ≤ k < 8 → j ≠ rb + (k - (7 - N)) * stride) →
          cells res' !! j = cells res !! j).
Proof.
  intros HN Hs. revert res rb HN.
  induction N as [|N IH]; intros res rb HN Harg Hres.
  - simpl. rewrite offset_eq. change (7 - 0) with 7 in *.
    destruct (Harg 7) as [x Hx]; [lia|]. rewrite Hx. simpl.
    rewrite store_Some by lia. eexists; split; [done|]. simpl.
    apply load_Some in Hx. split_and!.
    + by rewrite length_insert.
    + intros k Hk. assert (k = 7) as -> by lia.
      replace (rb + (7 - 7) * stride) with rb by lia.
      rewrite list_lookup_insert_eq by lia. done.
    + intros j Hj. rewrite list_lookup_insert_ne; [done|].
      specialize (Hj 7). lia.
  - simpl. rewrite offset_eq.
    destruct (Harg (7 - S N)) as [x Hx]; [lia|]. rewrite Hx. simpl.
    rewrite store_Some by lia. simpl.
    apply load_Some in Hx.
    set (res1 := Array _ _).
    destruct (IH res1 (rb + stride)) as (res' & -> & Hlen & Hcp & Hfr).
    { lia. }
    { intros k Hk. apply Harg. lia. }
    { subst res1. simpl. rewrite length_insert. lia. }
    eexists; split; [done|].
    subst res1; simpl in *. rewrite length_insert in Hlen.
    split_and!.
    + done.
    + intros k Hk. destruct (decide (k = 6 - N)) as [->|Hne].
      * replace (rb + (6 - N - (6 - N)) * stride) with rb by lia.
        rewrite Hfr.
        -- rewrite list_lookup_insert_eq by lia. done.
        -- intros k Hk'. nia.
      * rewrite <- Hcp by lia. f_equal.
        replace (k - (6 - N)) with (S (k - (7 - N))) by lia. lia.
    + intros j Hj. rewrite Hfr.
      * rewrite list_lookup_insert_ne; [done|]. specialize (Hj (6 - N)). lia.
      * intros k Hk. specialize (Hj k).
        replace (k - (6 - N)) with (S (k - (7 - N))) in Hj by lia. lia.
Qed.

(** Whenever [gather] returns, it has left [result[7]] as it was and put
    [arg[N * stride + 7]] into [result[0]]: the last step of the recursion
    stores through [*result] and reads [arg[offset]]. *)
Lemma gather_last_step (N : nat) (arg res res' : array A) (ab rb stride : nat) :
  N < 8 →
  gather N arg ab res rb stride = Some res' →
  cells res' !! (rb + 7) = cells res !! (rb + 7) ∧
  cells res' !! rb = cells arg !! (ab + N * stride + 7).
Proof.
  revert res ab. induction N as [|N IH]; intros res ab HN Hg.
  - simpl in Hg. rewrite offset_eq in Hg. change (7 - 0) with 7 in Hg.
    destruct (load arg (ab + 7)) as [x|] eqn:Hx; [|done]. simpl in Hg.
    unfold store in Hg. case_decide; [|done]. simplify_eq. simpl.
    apply load_Some in Hx. split.
    + by rewrite list_lookup_insert_ne by lia.
    + rewrite list_lookup_insert_eq by lia.
      by replace (ab + 0 + 7) with (ab + 7) by lia.
  - simpl in Hg. rewrite offset_eq in Hg.
    destruct (load arg ab) as [x|] eqn:Hx; [|done]. simpl in Hg.
    unfold store in Hg. case_decide; [|done]. simpl in Hg.
    apply IH in Hg as [H7 H0]; [|lia]. simpl in *. split.
    + rewrite H7. by rewrite list_lookup_insert_ne by lia.
    + rewrite H0. f_equal. lia.
Qed.

End scatter_gather_facts.

(** X1.  For every stride of at least 1, [VecOpUnwindN::scatter] stores
    [arg[k]] at [result[k * stride]] for each of the eight offsets [k], and
    changes no other cell of [result]. *)
Theorem scatter_block {A : Type} (arg result : array A) (rb stride : nat) :
  1 ≤ stride →
  (∀ k, k < 8 → is_Some (load arg k)) →
  rb + 7 * stride < length (cells result) →
  ∃ out,
    VectorOpUnwind.scatter VecOpUnwindN arg 0 result rb stride = Some out ∧
    length (cells out) = length (cells result) ∧
    (∀ k, k < 8 → load out (rb + k * stride) = load arg k) ∧
    (∀ j, (∀ k, k < 8 → j ≠ rb + k * stride) →
          cells out !! j = cells result !! j).
Proof.
  intros Hs Harg Hres.
  destruct (scatter_ok 7 arg result 0 rb stride)
    as (out & Hout & Hlen & Hcp & Hfr); [lia | done | | lia |].
  { intros k Hk. apply Harg. lia. }
  exists out. split_and!; [done | done | |].
  - intros k Hk. unfold load. specialize (Hcp k ltac:(lia)).
    replace (k - (7 - 7)) with k in Hcp by lia. by rewrite Hcp.
  - intros j Hj. apply Hfr. intros k Hk.
    replace (k - (7 - 7)) with k by lia. apply Hj. lia.
Qed.

(** A block of eight scattered with stride 3 into an array of 22 cells. *)
Lemma scatter_block_witness :
  let arg := of_list [1; 2; 3; 4; 5; 6; 7; 8] in
  let result := of_list (replicate 22 0) in
  ∃ out,
    VectorOpUnwind.scatter VecOpUnwindN arg 0 result 0 3 = Some out ∧
    length (cells out) = length (cells result) ∧
    (∀ k, k < 8 → load out (0 + k * 3) = load arg k) ∧
    (∀ j, (∀ k, k < 8 → j ≠ 0 + k * 3) →
          cells out !! j = cells result !! j).
Proof.
  intros arg result.
  apply (scatter_block arg result 0 3).
  - lia.
  - intros k Hk. do 8 (destruct k as [|k]; [by eexists|]). lia.
  - simpl. lia.
Defined.

(** X2.  [VecOpUnwindN::copy] stores the eight elements [arg[0..8)] to
    [result[0..8)], in increasing order of the index, one store each, and
    changes no other cell. *)
Theorem copy_block {A : Type} (arg result : array A) (ab rb : nat) :
  (∀ k, k < 8 → is_Some (load arg (ab + k))) →
  rb + 8 ≤ length (cells result) →
  ∃ out,
    VectorOpUnwind.copy VecOpUnwindN arg ab result rb = Some out ∧
    (∀ k, k < 8 → load out (rb + k) = load arg (ab + k)) ∧
    (∀ j, j < rb ∨ rb + 8 ≤ j → cells out !! j = cells result !! j) ∧
    written out = written result ++ seq rb 8.
Proof.
  intros Harg Hres.
  destruct (copy_ok 7 arg result ab rb)
    as (out & Hout & Hlen & Hcp & Hfr & Hw); [lia | | done |].
  { intros k Hk. apply Harg. lia. }
  exists out. split_and!; [done | | |].
  - intros k Hk. unfold load. by rewrite Hcp by lia.
  - intros j Hj. apply Hfr. lia.
  - rewrite Hw. by replace (rb + (7 - 7)) with rb by lia.
Qed.

(** Eight elements copied from position 2 of one array to position 1 of
    another. *)
Lemma copy_block_witness :
  let arg := of_list [0; 0; 1; 2; 3; 4; 5; 6; 7; 8] in
  let result := local_array 10 in
  ∃ out,
    VectorOpUnwind.copy VecOpUnwindN arg 2 result 1 = Some out ∧
    (∀ k, k < 8 → load out (1 + k) = load arg (2 + k)) ∧
    (∀ j, j < 1 ∨ 1 + 8 ≤ j → cells out !! j = cells result !! j) ∧
    written out = written result ++ seq 1 8.
Proof.
  intros arg result.
  apply (copy_block arg result 2 1).
  - intros k Hk. do 8 (destruct k as [|k]; [by eexists|]). lia.
  - simpl. lia.
Defined.

(** C10.  [scatter] with stride 2 puts the block [1..8] at the even positions
    of a zeroed array; [gather] with the same stride from there stores
    [arg[0]], then [arg[2]], ..., [arg[12]] into [result[0..6]], and in its
    last step overwrites [result[0]] with [arg[7 * 2 + 7]] and leaves
    [result[7]] unassigned: the block is not recovered. *)
Theorem gather_after_scatter_differs :
  let block := of_list [1; 2; 3; 4; 5; 6; 7; 8] in
  let scattered :=
    Array (Some <$> [1; 0; 2; 0; 3; 0; 4; 0; 5; 0; 6; 0; 7; 0; 8; 0;
                     0; 0; 0; 0; 0; 0])
          [0; 2; 4; 6; 8; 10; 12; 14] in
  VectorOpUnwind.scatter VecOpUnwindN block 0 (of_list (replicate 22 0)) 0 2
    = Some scattered ∧
  VectorOpUnwind.gather VecOpUnwindN scattered 0 (local_array 8) 0 2
    = Some (Array [Some 0; Some 2; Some 3; Some 4; Some 5; Some 6; Some 7; None]
                  [0; 1; 2; 3; 4; 5; 6; 0]) ∧
  VectorOpUnwind.gather VecOpUnwindN scattered 0 (local_array 8) 0 2
    ≠ Some (Array (cells block) [0; 1; 2; 3; 4; 5; 6; 7]).
Proof. split_and!; [reflexivity | reflexivity | discriminate]. Qed.

(** ** vector_op.h: [reduce_vector_op] *)

Section reduce_vector_op_facts.
Context {L R T : Type}.
Local Arguments VectorOpUnwind.copy : simpl never.
Local Arguments local_array : simpl never.

Lemma reduce_block_None (arg : array L) (op : T → L → T) (s : Z * T) :
  reduce_block arg op s = None.
Proof.
  destruct s as [i result]. unfold reduce_block.
  destruct (VectorOpUnwind.copy _ _ _ _ _) as [blk|]; [|done]. simpl.
  by destruct (load blk _).
Qed.

Lemma reduce2_block_None (left : array L) (right : array R)
    (op : T → L → R → T) (s : Z * T) :
  reduce2_block left right op s = None.
Proof.
  destruct s as [i result]. unfold reduce2_block.
  destruct (VectorOpUnwind.copy _ left _ _ _) as [lb|]; [|done]. simpl.
  destruct (VectorOpUnwind.copy _ right _ _ _) as [rb|]; [|done]. simpl.
  destruct (load lb _); [|done]. simpl. by destruct (load rb _).
Qed.

(** From eight elements on, the block loop runs, and its first pass fails. *)
Lemma reduce_vector_op_unrolled (n : Z) (arg : array L) (result : T)
    (op : T → L → T) :
  (8 ≤ n < 2 ^ 64)%Z → reduce_vector_op n arg result op = None.
Proof.
  intros Hn. unfold reduce_vector_op. rewrite land_index_mask by lia.
  assert (Hq : (8 ≤ 8 * (n / 8))%Z) by (Z.div_mod_to_equations; lia).
  destruct (Z.to_nat n) as [|fuel] eqn:Hfuel; [lia|].
  cbn [for_loop fst]. rewrite bool_decide_eq_true_2 by lia.
  by rewrite reduce_block_None.
Qed.

Lemma reduce_vector_op2_unrolled (n : Z) (left : array L) (right : array R)
    (result : T) (op : T → L → R → T) :
  (8 ≤ n < 2 ^ 64)%Z → reduce_vector_op2 n left right result op = None.
Proof.
  intros Hn. unfold reduce_vector_op2. rewrite land_index_mask by lia.
  assert (Hq : (8 ≤ 8 * (n / 8))%Z) by (Z.div_mod_to_equations; lia).
  destruct (Z.to_nat n) as [|fuel] eqn:Hfuel; [lia|].
  cbn [for_loop fst]. rewrite bool_decide_eq_true_2 by lia.
  by rewrite reduce2_block_None.
Qed.

(** Below eight elements the block limit is 0 and only the remainder loop
    runs: it is the elementwise loop. *)
Lemma reduce_vector_op_short (n : Z) (l : list L) (result : T)
    (op : T → L → T) :
  (0 ≤ n < 8)%Z → Z.to_nat n ≤ length l →
  reduce_vector_op n (of_list l) result op
    = naive_reduce (Z.to_nat n) (of_list l) result op.
Proof.
  intros Hn Hl. unfold reduce_vector_op. rewrite land_index_mask by lia.
  replace (n / 8)%Z with 0%Z by (symmetry; apply Z.div_small; lia).
  rewrite for_loop_exit by (by apply bool_decide_eq_false_2).
  cbn [mbind option_bind].
  destruct (for_loop_invariant
    (λ s : Z * T, (0 ≤ s.1 ≤ n)%Z ∧
       naive_reduce (Z.to_nat s.1) (of_list l) result op = Some s.2)
    (λ s, Z.to_nat (n - s.1))
    (λ s, bool_decide (s.1 < n)%Z)
    (reduce_scalar (of_list l) op)) with (fuel := Z.to_nat n)
    (s := (0%Z, result)) as (s & Hs & [Hi Hnaive] & Hc).
  { intros [i acc] [Hi Hacc] Hc. cbn [fst snd] in *.
    apply bool_decide_eq_true in Hc. unfold reduce_scalar.
    destruct (lookup_lt_is_Some_2 l (Z.to_nat i)) as [x Hx]; [lia|].
    rewrite load_of_list, Hx. simpl.
    eexists; split; [done|]. cbn [fst snd].
    rewrite size_wrap_small by lia. split; [split; [lia|]|lia].
    replace (Z.to_nat (i + 1)) with (S (Z.to_nat i)) by lia.
    simpl. rewrite Hacc. simpl. by rewrite load_of_list, Hx. }
  { split; [simpl; lia | done]. }
  { simpl. lia. }
  rewrite Hs. simpl. apply bool_decide_eq_false in Hc.
  rewrite <- Hnaive. f_equal. lia.
Qed.

End reduce_vector_op_facts.

(** C7.  On eight elements the elementwise loop sums [1..8] to 36, while
    [reduce_vector_op] enters its unrolled block, whose recursive step drops
    the operator, and yields no result; the two-array overload fails in the
    same way. *)
Theorem reduce_vector_op_block_fails :
  let arg := of_list [1; 2; 3; 4; 5; 6; 7; 8]%Z in
  naive_reduce 8 arg 0%Z Z.add = Some 36%Z ∧
  reduce_vector_op 8 arg 0%Z Z.add = None ∧
  reduce_vector_op2 8 arg arg 0%Z (λ r x y, r + x * y)%Z = None.
Proof.
  split_and!.
  - reflexivity.
  - apply reduce_vector_op_unrolled. lia.
  - apply reduce_vector_op2_unrolled. lia.
Qed.

(** ** input_data.cpp: [make_trange1] *)

Lemma StronglySorted_lt_lookup (bs : list nat) i j a b :
  StronglySorted lt bs → i < j → bs !! i = Some a → bs !! j = Some b → a < b.
Proof.
  intros Hs. revert i j. induction Hs as [|x bs Hs IH Hall]; intros i j Hij Ha Hb.
  - done.
  - destruct i as [|i], j as [|j]; try lia; simpl in *.
    + simplify_eq. rewrite Forall_forall in Hall. apply Hall.
      by eapply list_elem_of_lookup_2.
    + eapply IH; [|done..]. lia.
Qed.

Section make_trange1_facts.
Context {V : Type} `{EqDecision V}.
Context (labels : list V) (first last : nat).
Hypothesis Hfl : first < last.
Hypothesis Hlast : last ≤ length labels.

Local Abbreviation inv := (make_trange1_inv labels first last).

Lemma make_trange1_pass_inv s :
  inv s → s.1.1 ≠ last →
  ∃ s', make_trange1_pass labels s = Some s' ∧ inv s' ∧
        last - s'.1.1 < last - s.1.1.
Proof.
  destruct s as [[i cur] tiles]. unfold make_trange1_inv. cbn [fst snd].
  intros (Hi & Hcur & interior & -> & Hmem & Hsort) Hne.
  unfold make_trange1_pass.
  destruct (lookup_lt_is_Some_2 labels i) as [x Hx]; [lia|].
  rewrite Hx. simpl.
  assert (Hmax : Nat.max first (S i - 1) = i) by lia.
  destruct (decide (x ≠ cur)) as [Hch|Hsame].
  - assert (Hgt : first < i).
    { destruct (decide (first = i)) as [<-|]; [|lia].
      replace (Nat.max first (first - 1)) with first in Hcur by lia.
      congruence. }
    replace (Nat.max first (i - 1)) with (i - 1) in Hcur by lia.
    eexists; split; [done|]. cbn [fst snd]. split_and!; [lia | lia | | | lia].
    { by rewrite Hmax. }
    exists (interior ++ [i]). split_and!; [done | |].
    + intros p. rewrite elem_of_app, list_elem_of_singleton, Hmem.
      split.
      * intros [[Hp HP]| ->]; [split; [lia|done]|].
        split; [lia|]. rewrite Hx, Hcur. congruence.
      * intros [Hp HP]. destruct (decide (p = i)); [by right|left].
        split; [lia|done].
    + change (first :: interior ++ [i]) with ((first :: interior) ++ [i]).
      apply StronglySorted_app. split_and!; [|done|repeat constructor].
      intros a b Ha Hb. apply list_elem_of_singleton in Hb as ->.
      apply elem_of_cons in Ha as [->|Ha]; [done|].
      apply Hmem in Ha. lia.
  - apply dec_stable in Hsame. subst cur.
    eexists; split; [done|]. cbn [fst snd]. split_and!; [lia | lia | | | lia].
    { by rewrite Hmax. }
    exists interior. split_and!; [done | | done].
    intros p. rewrite Hmem. split.
    + intros [Hp HP]. split; [lia|done].
    + intros [Hp HP]. split; [|done].
      destruct (decide (p = i)) as [->|]; [|lia].
      exfalso. apply HP. rewrite Hx.
      by replace (Nat.max first (i - 1)) with (i - 1) in Hcur by lia.
Qed.

Lemma make_trange1_result :
  ∃ interior,
    make_trange1 labels first last = Some (first :: interior ++ [last]) ∧
    (∀ p, p ∈ interior ↔
          (first < p < last) ∧ labels !! p ≠ labels !! (p - 1)) ∧
    StronglySorted lt (first :: interior ++ [last]).
Proof.
  unfold make_trange1.
  destruct (lookup_lt_is_Some_2 labels first) as [cur Hcur]; [lia|].
  rewrite Hcur. simpl.
  destruct (for_loop_invariant
    inv
    (λ s, last - s.1.1)
    (λ s, bool_decide (s.1.1 ≠ last))
    (make_trange1_pass labels)) with (fuel := length labels)
    (s := (first, cur, [first]))
    as ([[i c] tiles] & -> & (Hi & _ & interior & Ht & Hmem & Hsort) & Hc).
  { intros s Hinv Hc. apply bool_decide_eq_true in Hc.
    by apply make_trange1_pass_inv. }
  { unfold make_trange1_inv. cbn [fst snd]. split_and!; [lia | lia | |].
    - by replace (Nat.max first (first - 1)) with first by lia.
    - exists []. split_and!; [done | | repeat constructor].
      intros p. rewrite elem_of_nil. lia. }
  { cbn [fst snd]. lia. }
  cbn [fst snd] in *. apply bool_decide_eq_false in Hc.
  apply dec_stable in Hc. subst i tiles. simpl.
  exists interior. split_and!; [done | done |].
  change (first :: interior ++ [last]) with ((first :: interior) ++ [last]).
  apply StronglySorted_app. split_and!; [|done|repeat constructor].
  intros a b Ha Hb. apply list_elem_of_singleton in Hb as ->.
  apply elem_of_cons in Ha as [->|Ha]; [done|].
  apply Hmem in Ha. lia.
Qed.

End make_trange1_facts.

(** C4.  For a non-empty sub-range [[first, last)] of the label sequence,
    [make_trange1] returns boundaries that start at [first], end at [last]
    and have in between exactly the positions where the label differs from
    the one before it (the running label); the boundaries are strictly
    increasing, every tile [[a, b)] carries one label, and the label changes
    at each end of a tile that is not an end of the sub-range. *)
Theorem make_trange1_boundaries {V : Type} `{EqDecision V}
    (labels : list V) (first last : nat) :
  first < last → last ≤ length labels →
  ∃ interior,
    make_trange1 labels first last = Some (first :: interior ++ [last]) ∧
    (∀ p, p ∈ interior ↔
          (first < p < last) ∧ labels !! p ≠ labels !! (p - 1)) ∧
    StronglySorted lt (first :: interior ++ [last]) ∧
    (∀ k a b,
       (first :: interior ++ [last]) !! k = Some a →
       (first :: interior ++ [last]) !! S k = Some b →
       a < b ∧
       (∀ p, a ≤ p < b → labels !! p = labels !! a) ∧
       (b < last → labels !! b ≠ labels !! a) ∧
       (first < a → labels !! a ≠ labels !! (a - 1))).
Proof.
  intros Hfl Hlast.
  destruct (make_trange1_result labels first last Hfl Hlast)
    as (interior & Hres & Hmem & Hsort).
  exists interior. split_and!; [done..|].
  set (tiles := first :: interior ++ [last]) in *.
  assert (Hin : ∀ x, x ∈ tiles → x = first ∨ x ∈ interior ∨ x = last).
  { intros x. unfold tiles.
    rewrite elem_of_cons, elem_of_app, list_elem_of_singleton. tauto. }
  assert (Hbound : ∀ x, x ∈ tiles → first ≤ x ≤ last).
  { intros x Hx. destruct (Hin x Hx) as [->|[[Hx' _]%Hmem| ->]]; lia. }
  intros k a b Ha Hb.
  assert (Hab : a < b) by (eapply (StronglySorted_lt_lookup tiles k (S k)); eauto).
  pose proof (Hbound a (list_elem_of_lookup_2 _ _ _ Ha)) as Ha'.
  pose proof (Hbound b (list_elem_of_lookup_2 _ _ _ Hb)) as Hb'.
  assert (Hflat : ∀ p, a < p < b → labels !! p = labels !! (p - 1)).
  { intros p Hp. apply dec_stable. intros HP.
    assert (p ∈ tiles) as Hpt.
    { unfold tiles. rewrite elem_of_cons, elem_of_app, Hmem. right; left.
      split; [lia|done]. }
    apply list_elem_of_lookup_1 in Hpt as [m Hm].
    destruct (decide (m ≤ k)) as [Hmk|Hmk].
    - destruct (decide (m = k)) as [->|]; [simplify_eq; lia|].
      pose proof (StronglySorted_lt_lookup tiles m k p a Hsort
                    ltac:(lia) Hm Ha). lia.
    - destruct (decide (m = S k)) as [->|]; [simplify_eq; lia|].
      pose proof (StronglySorted_lt_lookup tiles (S k) m b p Hsort
                    ltac:(lia) Hb Hm). lia. }
  assert (Hrun : ∀ d, a + d < b → labels !! (a + d) = labels !! a).
  { induction d as [|d IH]; intros Hd.
    - by rewrite Nat.add_0_r.
    - rewrite Hflat by lia. rewrite <- IH by lia. f_equal. lia. }
  split_and!.
  - done.
  - intros p Hp. replace p with (a + (p - a)) by lia. apply Hrun. lia.
  - intros Hbl.
    destruct (Hin b (list_elem_of_lookup_2 _ _ _ Hb)) as [->|[Hbi| ->]];
      [lia| |lia].
    apply Hmem in Hbi as [_ HP].
    rewrite <- (Hrun (b - 1 - a)) by lia.
    by replace (a + (b - 1 - a)) with (b - 1) by lia.
  - intros Hfa.
    destruct (Hin a (list_elem_of_lookup_2 _ _ _ Ha)) as [->|[Hai| ->]];
      [lia| |lia].
    by apply Hmem in Hai as [_ HP].
Qed.

(** Labels [1 1 2 2 2 3 1] from position 1 to position 6: boundaries
    [1; 2; 5; 6]. *)
Lemma make_trange1_boundaries_witness :
  let labels := [1; 1; 2; 2; 2; 3; 1] in
  ∃ interior,
    make_trange1 labels 1 6 = Some (1 :: interior ++ [6]) ∧
    (∀ p, p ∈ interior ↔ (1 < p < 6) ∧ labels !! p ≠ labels !! (p - 1)) ∧
    StronglySorted lt (1 :: interior ++ [6]) ∧
    (∀ k a b,
       (1 :: interior ++ [6]) !! k = Some a →
       (1 :: interior ++ [6]) !! S k = Some b →
       a < b ∧
       (∀ p, a ≤ p < b → labels !! p = labels !! a) ∧
       (b < 6 → labels !! b ≠ labels !! a) ∧
       (1 < a → labels !! a ≠ labels !! (a - 1))).
Proof.
  intros labels.
  apply (make_trange1_boundaries labels 1 6).
  - lia.
  - simpl. lia.
Defined.

(** ** permute_tiled_tensor.h: the shape of a permuted sparse array *)

(** A bitset of no bits has no block, so [init_shape] visits none. *)
Lemma init_shape_no_blocks {CS : CoordinateSystem} (perm size : list nat)
    (arg : tensor_arg) :
  init_shape perm size arg (Bitset.new 0) = Some (Bitset.new 0).
Proof. reflexivity. Qed.

(** The constructor sizes [shape_] with [arg_.is_dense() ? arg_.volume() : 0]:
    for every sparse argument the destination shape has no bit at all. *)
Lemma PermuteTiledTensor_new_sparse (arg : tensor_arg) (p : list nat) :
  arg_is_dense arg = false →
  ∃ t, PermuteTiledTensor_new arg p = Some t ∧ get_shape t = Bitset.new 0.
Proof.
  intros Hd. unfold PermuteTiledTensor_new. rewrite Hd. cbn [negb].
  destruct (arg_order arg); rewrite init_shape_no_blocks; by eexists.
Qed.

(** C1.  A 2 x 2 sparse argument whose only nonzero tile is (0,1), ordinal
    1, permuted by the axis swap: bit by bit, the permuted shape has its
    only set bit at ordinal 2, tile (1,0); the constructor builds a node
    whose shape has no bits, so that the bit of tile (1,0) is not set. *)
Theorem permute_shape_axis_swap :
  let arg := TensorArg [2; 2] decreasing_dimension_order false
               (Bitset.Make [false; true; false; false]) in
  let p := [1; 0] in
  naive_permute_shape (CS := cs_decreasing) arg p
    = Bitset.Make [false; false; true; false] ∧
  ∃ t, PermuteTiledTensor_new arg p = Some t ∧
       Bitset.bits (get_shape t) = [] ∧
       Bitset.get (get_shape t) 2 ≠ Some true.
Proof.
  split; [reflexivity|].
  eexists. split; [reflexivity|]. split; [reflexivity|]. discriminate.
Qed.

(** ** permute_tiled_tensor.h: [is_zero] *)

Lemma is_zero_dense (t : PermuteTiledTensor) (i : nat) :
  i < volume (trange_ t) → is_dense t = true → is_zero t i = Some true.
Proof.
  intros Hi Hd. unfold is_zero, includes.
  by rewrite bool_decide_eq_true_2, Hd.
Qed.

Lemma is_zero_sparse (t : PermuteTiledTensor) (i : nat) :
  i < volume (trange_ t) → is_dense t = false →
  is_zero t i = Bitset.get (shape_ t) i.
Proof.
  intros Hi Hd. unfold is_zero, includes.
  by rewrite bool_decide_eq_true_2, Hd.
Qed.

(** C2.  The node built over a dense 2 x 2 argument answers [is_zero(i)] with
    true for each of its four tiles; and a node over a sparse argument
    answers with the bit of the tile itself, true where the bit is set.  The
    claim has false for a dense node and the negation of the bit for a sparse
    one.  The node that the constructor builds over a sparse argument has no
    bit to read at all. *)
Theorem is_zero_answers_presence :
  let dense := TensorArg [2; 2] decreasing_dimension_order true
                 (Bitset.new 0) in
  let sparse := TensorArg [2; 2] decreasing_dimension_order false
                  (Bitset.Make [false; true; false; false]) in
  (∃ t, PermuteTiledTensor_new dense [1; 0] = Some t ∧
        ∀ i, i < 4 → is_zero t i = Some true) ∧
  (∀ (t : PermuteTiledTensor) (i : nat) (bit : bool),
     i < volume (trange_ t) → is_dense t = false →
     Bitset.get (shape_ t) i = Some bit → is_zero t i = Some bit) ∧
  (∃ t, PermuteTiledTensor_new sparse [1; 0] = Some t ∧
        ∀ i, i < 4 → is_zero t i = None).
Proof.
  split_and!.
  - eexists. split; [reflexivity|].
    intros i Hi. apply is_zero_dense; [exact Hi | reflexivity].
  - intros t i bit Hi Hd Hbit. by rewrite is_zero_sparse.
  - eexists. split; [reflexivity|].
    intros i Hi. rewrite is_zero_sparse; [reflexivity | exact Hi | reflexivity].
Qed.

(** ** tile.h: [subt] *)

Lemma values_of_list {T} (l : list T) (w : list nat) :
  values (Array (Some <$> l) w) = Some l.
Proof. unfold values. simpl. by apply mapM_fmap_Some. Qed.

Lemma filled_all {T} (f : nat → option T) (res0 out : array T) (l : list T) :
  length l = length (cells res0) →
  (∀ j, f j = l !! j) →
  filled f res0 (length l) out →
  cells out = Some <$> l.
Proof.
  intros Hlen Hf (Hl & Hval & _ & _).
  apply list_eq. intros j. rewrite list_lookup_fmap.
  destruct (decide (j < length l)) as [Hj|Hj].
  - specialize (Hval j Hj). rewrite Hf in Hval.
    destruct (lookup_lt_is_Some_2 l j Hj) as [x Hx].
    rewrite Hx in Hval |- *. by apply load_Some in Hval.
  - rewrite !lookup_ge_None_2; [done | lia | lia].
Qed.

(** The elementwise tensor function returns, with the operands' range and
    the operator applied index by index. *)
Lemma tensor_binary_data {E} (op : E → E → E) (l r : Tensor E) :
  range l = range r →
  length (data l) = volume (range l) →
  length (data r) = volume (range r) →
  (Z.of_nat (volume (range l)) < 2 ^ 64)%Z →
  tensor_binary op l r
    = Some (MkTensor (range l) (zip_with op (data l) (data r))).
Proof.
  intros Hrange Hl Hr Hn. unfold tensor_binary.
  rewrite decide_True by done. cbn zeta.
  set (n := volume (range l)) in *.
  destruct (binary_vector_op_filled op (data l) (data r) (local_array n)
              (Z.of_nat n)) as (out & -> & Hfill).
  { lia. }
  { rewrite Nat2Z.id. lia. }
  { rewrite Nat2Z.id, Hr, <- Hrange. done. }
  { rewrite Nat2Z.id. simpl. by rewrite length_replicate. }
  simpl. rewrite Nat2Z.id in Hfill.
  assert (Hlen : length (zip_with op (data l) (data r)) = n).
  { rewrite length_zip_with, Hl, Hr, <- Hrange. fold n. lia. }
  rewrite <- Hlen in Hfill.
  apply filled_all in Hfill; [| |done].
  - destruct out as [c w]. simpl in Hfill. subst c.
    by rewrite values_of_list.
  - simpl. by rewrite length_replicate.
Qed.

(** C3.  Two tiles of integers over a 2 x 3 range.  The tensor function
    [subt] gives their elementwise difference, and the overloads of the tile
    function [subt] with a factor, with a permutation and with both return
    that difference scaled, permuted, and scaled and permuted.  The
    two-argument [subt(left, right)] returns nothing, for these and for all
    tiles: its declared result type names a function [sub] that the
    sources do not declare, so the overload is never a candidate.  Its body
    is not at fault: were a function [sub] declared, the call would return
    the elementwise difference for every pair of tiles over the same
    range. *)
Theorem subt_result_type_names_sub :
  let l := MkTensor [2; 3] [10; 20; 30; 40; 50; 60]%Z in
  let r := MkTensor [2; 3] [1; 2; 3; 4; 5; 6]%Z in
  let d := MkTensor [2; 3] [9; 18; 27; 36; 45; 54]%Z in
  let repo := dense_interface None in
  tensor_subt (TensorInterface := repo) l r = Some d ∧
  subt_scaled (H := repo) (make_tile l) (make_tile r) 2%Z
    = Some (make_tile (MkTensor [2; 3] [18; 36; 54; 72; 90; 108]%Z)) ∧
  subt_perm (H := repo) (make_tile l) (make_tile r) [1; 0]
    = Some (make_tile (MkTensor [3; 2] [9; 36; 18; 45; 27; 54]%Z)) ∧
  subt_scaled_perm (H := repo) (make_tile l) (make_tile r) 2%Z [1; 0]
    = Some (make_tile (MkTensor [3; 2] [18; 72; 36; 90; 54; 108]%Z)) ∧
  subt (H := repo) (make_tile l) (make_tile r) = None ∧
  (∀ left right : Tile (Tensor Z), subt (H := repo) left right = None) ∧
  (∀ sub (left right : Tile (Tensor Z)) (tl tr : Tensor Z),
     tensor left = Some tl → tensor right = Some tr →
     range tl = range tr →
     length (data tl) = volume (range tl) →
     length (data tr) = volume (range tr) →
     (Z.of_nat (volume (range tl)) < 2 ^ 64)%Z →
     subt (H := dense_interface (Some sub)) left right
       = Some (make_tile
                 (MkTensor (range tl) (zip_with Z.sub (data tl) (data tr))))).
Proof.
  cbv zeta. split_and!.
  - by vm_compute.
  - by vm_compute.
  - by vm_compute.
  - by vm_compute.
  - reflexivity.
  - intros left right. reflexivity.
  - intros sub left right tl tr Hleft Hright Hrange Hl Hr Hn.
    unfold subt. simpl. rewrite Hleft, Hright. simpl.
    by rewrite tensor_binary_data.
Qed.

(** ** TiledRange1: [element_to_tile] *)

(** A found tile covers the element: its boundaries enclose it. *)
Lemma boundary_search_Some (bs : list Z) (lo e : Z) (t0 t : nat) :
  (lo ≤ e)%Z → boundary_search bs e t0 = Some t →
  t0 ≤ t ∧ ∃ a b, (lo :: bs) !! (t - t0) = Some a ∧
                  (lo :: bs) !! S (t - t0) = Some b ∧ (a ≤ e < b)%Z.
Proof.
  revert lo t0. induction bs as [|b bs IH]; intros lo t0 Hlo Hs; [done|].
  simpl in Hs. case_decide.
  - simplify_eq. split; [done|]. exists lo, b.
    replace (t - t) with 0 by lia. done.
  - apply IH with (lo := b) in Hs as (Ht & a & c & Ha & Hc & Hac); [|lia].
    split; [lia|]. exists a, c.
    replace (t - t0) with (S (t - S t0)) by lia. done.
Qed.

(** The search fails only past every boundary. *)
Lemma boundary_search_None (bs : list Z) (e : Z) (t0 : nat) :
  boundary_search bs e t0 = None ↔ Forall (λ b, b ≤ e)%Z bs.
Proof.
  revert t0. induction bs as [|b bs IH]; intros t0; simpl.
  - split; [constructor | done].
  - case_decide.
    + split; [done|]. intros Hall. apply Forall_cons in Hall as [? _]. lia.
    + rewrite IH, Forall_cons. split; [|tauto]. intros ?. split; [lia|done].
Qed.

Lemma element_to_tile_covers (tr : TiledRange1) (e : Z) (t : nat) :
  element_to_tile tr e = inr t →
  ∃ a b, boundaries tr !! t = Some a ∧ boundaries tr !! S t = Some b ∧
         (a ≤ e < b)%Z.
Proof.
  unfold element_to_tile. destruct (boundaries tr) as [|b0 bs]; [done|].
  case_decide; [done|].
  destruct (boundary_search bs e 0) as [t'|] eqn:Hs; [|done].
  intros [= ->].
  apply boundary_search_Some with (lo := b0) in Hs as (_ & a & b & Ha & Hb & ?);
    [|lia].
  rewrite Nat.sub_0_r in Ha, Hb. eauto.
Qed.

(** C8.  With boundaries [0, 2, 5, 7], element 3 lies in tile 1, whose
    boundaries 2 and 5 enclose it; element 7 and every element below 0 or
    from 7 on is refused with [IndexOutOfRange], and every element of
    [0, 7) is given a tile. *)
Theorem element_to_tile_0_2_5_7 :
  let tr := MkTiledRange1 [0; 2; 5; 7]%Z in
  element_to_tile tr 3 = inr 1 ∧
  boundaries tr !! 1 = Some 2%Z ∧ boundaries tr !! 2 = Some 5%Z ∧
  element_to_tile tr 7 = inl IndexOutOfRange ∧
  (∀ e, (e < 0 ∨ 7 ≤ e)%Z → element_to_tile tr e = inl IndexOutOfRange) ∧
  (∀ e, (0 ≤ e < 7)%Z → ∃ t, element_to_tile tr e = inr t).
Proof.
  split_and!.
  - reflexivity.
  - reflexivity.
  - reflexivity.
  - reflexivity.
  - intros e He. unfold element_to_tile. simpl.
    repeat case_decide; first [done | lia].
  - intros e He. unfold element_to_tile. simpl.
    repeat case_decide; first [by eexists | lia].
Qed.

(** ** conversions.cpp: [int] to [float] and back *)

Lemma representable_small (x : Z) : (Z.abs x ≤ 2 ^ 24)%Z → representable x.
Proof.
  intros Hx. unfold representable, float_of_int. cbn zeta.
  case_decide; [done|].
  assert (x = 2 ^ 24 ∨ x = - 2 ^ 24)%Z as [-> | ->] by lia; reflexivity.
Qed.

Lemma int_of_float_of_int (x : Z) :
  int_range x → representable x → int_of_float (float_of_int x) = Some x.
Proof.
  intros Hx Hr. rewrite Hr. unfold int_of_float. simpl.
  by rewrite decide_True.
Qed.

Lemma tensor_round_trip (t : Tensor Z) :
  Forall (λ x, int_range x ∧ representable x) (data t) →
  tensorf_to_tensori (tensori_to_tensorf t) = Some t.
Proof.
  intros Hall. unfold tensorf_to_tensori, tensori_to_tensorf. simpl.
  rewrite (mapM_fmap_Forall_Some int_of_float float_of_int (data t)).
  - simpl. by destruct t.
  - eapply Forall_impl; [exact Hall|]. intros x [Hx Hr].
    by apply int_of_float_of_int.
Qed.

(** C6.  For an array of integer tiles whose elements are [int]s that
    [float] holds exactly, converting every tile with [tensori_to_tensorf]
    and the result with [tensorf_to_tensori] gives the array back: the same
    range, distribution and shape, hence the same zero tiles, and the same
    stored tiles. *)
Theorem to_new_tile_type_round_trip (a : DistArray (Tensor Z)) :
  (∀ i t, da_storage a !! i = Some t →
          Forall (λ x, int_range x ∧ representable x) (data t)) →
  ∃ a_f,
    to_new_tile_type a (λ t, Some (tensori_to_tensorf t)) = Some a_f ∧
    to_new_tile_type a_f tensorf_to_tensori = Some a ∧
    (∀ i, da_is_zero a_f i = da_is_zero a i) ∧
    (∀ i, da_storage a_f !! i = tensori_to_tensorf <$> da_storage a !! i).
Proof.
  intros Hrep.
  exists (MkDistArray (da_trange a) (da_pmap a) (da_shape a)
            (tensori_to_tensorf <$> da_storage a)).
  assert (Hf : omap (λ t, Some (tensori_to_tensorf t)) (da_storage a)
               = tensori_to_tensorf <$> da_storage a).
  { apply map_eq. intros i. rewrite lookup_omap, lookup_fmap.
    by destruct (da_storage a !! i). }
  split_and!.
  - unfold to_new_tile_type. rewrite decide_True.
    + by rewrite Hf.
    + intros i t _. by eexists.
  - unfold to_new_tile_type. simpl. rewrite decide_True.
    + destruct a as [tr pm sh st]. simpl in *. f_equal. f_equal.
      apply map_eq. intros i. rewrite lookup_omap, lookup_fmap.
      destruct (st !! i) as [t|] eqn:Ht; [|done]. simpl.
      apply tensor_round_trip. by eapply Hrep.
    + intros i tf. rewrite lookup_fmap.
      destruct (da_storage a !! i) as [t|] eqn:Ht; [|done].
      intros [= <-]. rewrite tensor_round_trip; [by eexists|].
      by eapply Hrep.
  - done.
  - intros i. simpl. by rewrite lookup_fmap.
Qed.

(** A sparse array of two tiles over four ordinals, elements between 0 and
    100 as the test fixture draws them. *)
Lemma to_new_tile_type_round_trip_witness :
  let a := MkDistArray
             [MkTiledRange1 [0; 2; 4]%Z; MkTiledRange1 [0; 2; 4]%Z]
             (λ i, i mod 2)
             (Some (MkShape [1; 0; 0; 1]%Q (1 # 2)%Q))
             (<[0 := MkTensor [2; 2] [0; 17; 100; 42]%Z]>
                (<[3 := MkTensor [2; 2] [5; 6; 7; 8]%Z]> ∅)) in
  ∃ a_f,
    to_new_tile_type a (λ t, Some (tensori_to_tensorf t)) = Some a_f ∧
    to_new_tile_type a_f tensorf_to_tensori = Some a ∧
    (∀ i, da_is_zero a_f i = da_is_zero a i) ∧
    (∀ i, da_storage a_f !! i = tensori_to_tensorf <$> da_storage a !! i).
Proof.
  intros a.
  apply (to_new_tile_type_round_trip a).
  intros i t Ht. subst a. simpl in Ht.
  apply lookup_insert_Some in Ht as [[_ <-]|[_ Ht]].
  - repeat constructor; try (apply representable_small; simpl; lia);
      unfold int_min, int_max; lia.
  - apply lookup_insert_Some in Ht as [[_ <-]|[_ Ht]]; [|done].
    repeat constructor; try (apply representable_small; simpl; lia);
      unfold int_min, int_max; lia.
Defined.

(** * Further properties of the embedded code *)

(** ** vector_op.h: [unary_vector_op] *)

Section unary_unwind_facts.
Import VectorOpUnwind VectorOpUnwindUnary.

Lemma unary_ok {A T} (N : nat) (arg : array A) (res : array T) (op : A → T) :
  N < 8 →
  (∀ k, 7 - N ≤ k < 8 → is_Some (load arg k)) →
  8 ≤ length (cells res) →
  ∃ res', unary N arg res op = Some res' ∧
    length (cells res') = length (cells res) ∧
    (∀ k a, 7 - N ≤ k < 8 → load arg k = Some a →
            load res' k = Some (op a)) ∧
    (∀ j, j < 7 - N ∨ 8 ≤ j → cells res' !! j = cells res !! j).
Proof.
  revert res. induction N as [|N IH]; intros res HN Ha Hres.
  - simpl. rewrite offset_eq. change (7 - 0) with 7 in *.
    destruct (Ha 7) as [a Hx]; [lia|].
    rewrite Hx. simpl. rewrite store_Some by lia.
    eexists; split; [done|]. simpl. split_and!.
    + by rewrite length_insert.
    + intros k a' Hk Ha'. assert (k = 7) as -> by lia.
      rewrite load_insert_eq by lia. congruence.
    + intros j Hj. by rewrite list_lookup_insert_ne by lia.
  - simpl. rewrite offset_eq.
    destruct (Ha (7 - S N)) as [a Hx]; [lia|].
    rewrite Hx. simpl. rewrite store_Some by lia. simpl.
    set (res1 := Array _ _).
    destruct (IH res1) as (res' & -> & Hlen & Hop & Hfr).
    { lia. }
    { intros k Hk. apply Ha. lia. }
    { subst res1. simpl. rewrite length_insert. lia. }
    eexists; split; [done|].
    subst res1; simpl in *. rewrite length_insert in Hlen.
    split_and!.
    + done.
    + intros k a' Hk Ha'. destruct (decide (k = 6 - N)) as [->|Hne].
      * apply load_Some. rewrite Hfr by lia.
        rewrite list_lookup_insert_eq by lia. congruence.
      * eapply Hop; [lia|done].
    + intros j Hj. rewrite Hfr by lia.
      by rewrite list_lookup_insert_ne by lia.
Qed.

Lemma unary_to_ok {T} (N : nat) (res : array T) (op : T → T) :
  N < 8 →
  (∀ k, 7 - N ≤ k < 8 → is_Some (load res k)) →
  ∃ res', unary_to N res op = Some res' ∧
    length (cells res') = length (cells res) ∧
    (∀ k r, 7 - N ≤ k < 8 → load res k = Some r →
            load res' k = Some (op r)) ∧
    (∀ j, j < 7 - N ∨ 8 ≤ j → cells res' !! j = cells res !! j).
Proof.
  revert res. induction N as [|N IH]; intros res HN Hr.
  - simpl. rewrite offset_eq. change (7 - 0) with 7 in *.
    destruct (Hr 7) as [r Hy]; [lia|]. rewrite Hy. simpl.
    assert (7 < length (cells res)) as Hlen.
    { apply load_Some in Hy. by eapply lookup_lt_Some. }
    rewrite store_Some by lia.
    eexists; split; [done|]. simpl. split_and!.
    + by rewrite length_insert.
    + intros k r' Hk Hr'. assert (k = 7) as -> by lia.
      rewrite load_insert_eq by lia. congruence.
    + intros j Hj. by rewrite list_lookup_insert_ne by lia.
  - simpl. rewrite offset_eq.
    destruct (Hr (7 - S N)) as [r Hy]; [lia|]. rewrite Hy. simpl.
    assert (7 - S N < length (cells res)) as Hlt.
    { apply load_Some in Hy. by eapply lookup_lt_Some. }
    rewrite store_Some by lia. simpl.
    set (res1 := Array _ _).
    assert (Hsame : ∀ k, 7 - N ≤ k < 8 → load res1 k = load res k).
    { intros k Hk. apply load_frame. subst res1. simpl.
      by rewrite list_lookup_insert_ne by lia. }
    destruct (IH res1) as (res' & -> & Hlen & Hop & Hfr).
    { lia. }
    { intros k Hk. rewrite Hsame by lia. apply Hr. lia. }
    eexists; split; [done|].
    split_and!.
    + rewrite Hlen. subst res1. simpl. by rewrite length_insert.
    + intros k r' Hk Hr'. destruct (decide (k = 7 - S N)) as [->|Hne].
      * apply load_Some. rewrite Hfr by lia. subst res1. simpl.
        rewrite list_lookup_insert_eq by lia. congruence.
      * eapply Hop; [lia|]. rewrite Hsame by lia. done.
    + intros j Hj. rewrite Hfr by lia. subst res1. simpl.
      by rewrite list_lookup_insert_ne by lia.
Qed.

End unary_unwind_facts.

Section unary_vector_op_facts.
Context {A T : Type} (op : A → T) (l : list A).
Context (res0 : array T) (n : Z).
Hypothesis Hn : (0 ≤ n < 2 ^ 64)%Z.
Hypothesis Hl : Z.to_nat n ≤ length l.
Hypothesis Hres : Z.to_nat n ≤ length (cells res0).

Local Abbreviation u := (λ j : nat, op <$> l !! j).
Local Arguments VectorOpUnwind.copy : simpl never.
Local Arguments VectorOpUnwindUnary.unary : simpl never.
Local Arguments local_array : simpl never.
Local Arguments VecOpUnwindN : simpl never.
Local Arguments TILEDARRAY_LOOP_UNWIND : simpl never.

Lemma unary_block_step (i : Z) (out : array T) :
  (0 ≤ i)%Z → (i + 8 ≤ n)%Z →
  filled u res0 (Z.to_nat i) out →
  ∃ out', unary_block (of_list l) op (i, out) = Some ((i + 8)%Z, out') ∧
          filled u res0 (Z.to_nat (i + 8)) out'.
Proof.
  intros Hi Hi8 Hfill. unfold unary_block, of_list.
  destruct (copy_to_block l [] (Z.to_nat i)) as (ab & -> & Hab_len & Hab);
    [lia|]. simpl.
  destruct (unary_ok 7 ab (local_array 8) op) as (blk & Hb & _ & Hop & _).
  { lia. }
  { intros o Ho. rewrite Hab by lia. apply lookup_lt_is_Some_2. lia. }
  { done. }
  change VecOpUnwindN with 7. change TILEDARRAY_LOOP_UNWIND with 8.
  rewrite Hb. simpl.
  destruct (filled_copy u res0 out blk (Z.to_nat i))
    as (out' & Hc & Hfill'); [lia| |done|].
  { intros o Ho.
    destruct (lookup_lt_is_Some_2 l (Z.to_nat i + o)) as [x Hx]; [lia|].
    rewrite Hx. simpl. split; [by eexists|].
    apply Hop; [lia|]. by rewrite Hab by lia. }
  change VecOpUnwindN with 7 in Hc. rewrite Hc. simpl.
  exists out'. split.
  - rewrite size_wrap_small by (simpl; lia). done.
  - replace (Z.to_nat (i + 8)) with (Z.to_nat i + 8) by lia. done.
Qed.

Lemma unary_scalar_step (i : Z) (out : array T) :
  (0 ≤ i < n)%Z →
  filled u res0 (Z.to_nat i) out →
  ∃ out', unary_scalar (of_list l) op (i, out) = Some ((i + 1)%Z, out') ∧
          filled u res0 (Z.to_nat (i + 1)) out'.
Proof.
  intros Hi Hfill. unfold unary_scalar.
  destruct (lookup_lt_is_Some_2 l (Z.to_nat i)) as [x Hx]; [lia|].
  rewrite load_of_list, Hx. simpl.
  destruct (filled_store u res0 out (Z.to_nat i) (op x))
    as (out' & -> & Hfill'); [lia| by rewrite Hx |done|].
  simpl. exists out'. split.
  - rewrite size_wrap_small by lia. done.
  - replace (Z.to_nat (i + 1)) with (S (Z.to_nat i)) by lia. done.
Qed.

Lemma unary_vector_op_filled :
  ∃ out, unary_vector_op n (of_list l) res0 op = Some out ∧
         filled u res0 (Z.to_nat n) out.
Proof.
  unfold unary_vector_op. rewrite land_index_mask by done.
  assert (Hq : (0 ≤ n / 8 ∧ 8 * (n / 8) ≤ n)%Z)
    by (Z.div_mod_to_equations; lia).
  remember (n / 8)%Z as q eqn:Hq0. clear Hq0.
  remember (8 * q)%Z as nx eqn:Hnx.
  destruct (for_loop_invariant
    (λ s : Z * array T,
       (∃ a, s.1 = 8 * a ∧ 0 ≤ a ≤ q)%Z ∧ filled u res0 (Z.to_nat s.1) s.2)
    (λ s, Z.to_nat (nx - s.1))
    (λ s, bool_decide (s.1 < nx)%Z)
    (unary_block (of_list l) op)) with (fuel := Z.to_nat n)
    (s := (0%Z, res0)) as (s1 & -> & [(a & Ha & Hale) Hfill1] & Hc1).
  { intros [i out] [(a & Ha & Hale) Hfill] Hc. cbn [fst snd] in *.
    apply bool_decide_eq_true in Hc.
    destruct (unary_block_step i out) as (out' & -> & Hfill');
      [lia | lia | done |].
    eexists; split; [done|]. cbn [fst snd]. split; [split|].
    - exists (a + 1)%Z. lia.
    - done.
    - lia. }
  { simpl. split; [exists 0%Z; lia | apply filled_0]. }
  { simpl. lia. }
  simpl. apply bool_decide_eq_false in Hc1.
  destruct (for_loop_invariant
    (λ s : Z * array T, (0 ≤ s.1 ≤ n)%Z ∧ filled u res0 (Z.to_nat s.1) s.2)
    (λ s, Z.to_nat (n - s.1))
    (λ s, bool_decide (s.1 < n)%Z)
    (unary_scalar (of_list l) op)) with (fuel := Z.to_nat n)
    (s := s1) as (s2 & -> & [Hs2 Hfill2] & Hc2).
  { intros [i out] [Hi Hfill] Hc. cbn [fst snd] in *.
    apply bool_decide_eq_true in Hc.
    destruct (unary_scalar_step i out) as (out' & -> & Hfill');
      [lia | done |].
    eexists; split; [done|]. cbn [fst snd].
    split; [split|]; [lia | done | lia]. }
  { split; [lia | done]. }
  { lia. }
  simpl. apply bool_decide_eq_false in Hc2.
  exists s2.2. split; [done|].
  replace n with s2.1 at 1 by lia. done.
Qed.

End unary_vector_op_facts.

Section unary_vector_op_to_facts.
Context {T : Type} (op : T → T).
Context (res0 : array T) (n : Z).
Hypothesis Hn : (0 ≤ n < 2 ^ 64)%Z.
Hypothesis Hres : ∀ j, j < Z.to_nat n → is_Some (load res0 j).

Local Abbreviation v := (λ j : nat, op <$> load res0 j).
Local Arguments VectorOpUnwind.copy : simpl never.
Local Arguments VectorOpUnwindUnary.unary_to : simpl never.
Local Arguments local_array : simpl never.
Local Arguments VecOpUnwindN : simpl never.
Local Arguments TILEDARRAY_LOOP_UNWIND : simpl never.

Lemma res0_length_to : Z.to_nat n ≤ length (cells res0).
Proof.
  destruct (decide (Z.to_nat n = 0)) as [->|Hne]; [lia|].
  destruct (Hres (Z.to_nat n - 1)) as [x Hx]; [lia|].
  apply load_Some, lookup_lt_Some in Hx. lia.
Qed.

Lemma unary_to_block_step (i : Z) (out : array T) :
  (0 ≤ i)%Z → (i + 8 ≤ n)%Z →
  filled v res0 (Z.to_nat i) out →
  ∃ out', unary_to_block op (i, out) = Some ((i + 8)%Z, out') ∧
          filled v res0 (Z.to_nat (i + 8)) out'.
Proof.
  intros Hi Hi8 Hfill. unfold unary_to_block.
  pose proof res0_length_to as Hlen0.
  pose proof Hfill as (Hlen & _ & Hfr & _).
  assert (Hsame : ∀ o, o < 8 → load out (Z.to_nat i + o)
                                = load res0 (Z.to_nat i + o)).
  { intros o Ho. apply load_frame, Hfr. lia. }
  destruct (copy_ok 7 out (local_array 8) (Z.to_nat i) 0)
    as (rb & Hrb & Hrb_len & Hrb_cp & _ & _).
  { lia. }
  { intros o Ho. rewrite Hsame by lia. apply Hres. lia. }
  { done. }
  change VecOpUnwindN with 7. change TILEDARRAY_LOOP_UNWIND with 8.
  rewrite Hrb. simpl.
  assert (Hrb_v : ∀ o, o < 8 → load rb o = load res0 (Z.to_nat i + o)).
  { intros o Ho. rewrite <- Hsame by lia. unfold load.
    pose proof (Hrb_cp o ltac:(lia)) as Ho'. simpl in Ho'. by rewrite Ho'. }
  destruct (unary_to_ok 7 rb op) as (blk & Hb & _ & Hop & _).
  { lia. }
  { intros o Ho. rewrite Hrb_v by lia. apply Hres. lia. }
  rewrite Hb. simpl.
  destruct (filled_copy v res0 out blk (Z.to_nat i))
    as (out' & Hc & Hfill'); [lia| |done|].
  { intros o Ho.
    destruct (Hres (Z.to_nat i + o)) as [x Hx]; [lia|].
    rewrite Hx. simpl. split; [by eexists|].
    apply Hop; [lia|]. by rewrite Hrb_v by lia. }
  change VecOpUnwindN with 7 in Hc. rewrite Hc. simpl.
  exists out'. split.
  - rewrite size_wrap_small by (simpl; lia). done.
  - replace (Z.to_nat (i + 8)) with (Z.to_nat i + 8) by lia. done.
Qed.

Lemma unary_to_scalar_step (i : Z) (out : array T) :
  (0 ≤ i < n)%Z →
  filled v res0 (Z.to_nat i) out →
  ∃ out', unary_to_scalar op (i, out) = Some ((i + 1)%Z, out') ∧
          filled v res0 (Z.to_nat (i + 1)) out'.
Proof.
  intros Hi Hfill. unfold unary_to_scalar.
  pose proof res0_length_to as Hlen0.
  pose proof Hfill as (Hlen & _ & Hfr & _).
  destruct (Hres (Z.to_nat i)) as [x Hx]; [lia|].
  rewrite (load_frame out res0) by (apply Hfr; lia).
  rewrite Hx. simpl.
  destruct (filled_store v res0 out (Z.to_nat i) (op x))
    as (out' & -> & Hfill'); [lia| by rewrite Hx |done|].
  simpl. exists out'. split.
  - rewrite size_wrap_small by lia. done.
  - replace (Z.to_nat (i + 1)) with (S (Z.to_nat i)) by lia. done.
Qed.

Lemma unary_vector_op_to_filled :
  ∃ out, unary_vector_op_to n res0 op = Some out ∧
         filled v res0 (Z.to_nat n) out.
Proof.
  unfold unary_vector_op_to. rewrite land_index_mask by done.
  assert (Hq : (0 ≤ n / 8 ∧ 8 * (n / 8) ≤ n)%Z)
    by (Z.div_mod_to_equations; lia).
  remember (n / 8)%Z as q eqn:Hq0. clear Hq0.
  remember (8 * q)%Z as nx eqn:Hnx.
  destruct (for_loop_invariant
    (λ s : Z * array T,
       (∃ a, s.1 = 8 * a ∧ 0 ≤ a ≤ q)%Z ∧ filled v res0 (Z.to_nat s.1) s.2)
    (λ s, Z.to_nat (nx - s.1))
    (λ s, bool_decide (s.1 < nx)%Z)
    (unary_to_block op)) with (fuel := Z.to_nat n)
    (s := (0%Z, res0)) as (s1 & -> & [(a & Ha & Hale) Hfill1] & Hc1).
  { intros [i out] [(a & Ha & Hale) Hfill] Hc. cbn [fst snd] in *.
    apply bool_decide_eq_true in Hc.
    destruct (unary_to_block_step i out) as (out' & -> & Hfill');
      [lia | lia | done |].
    eexists; split; [done|]. cbn [fst snd]. split; [split|].
    - exists (a + 1)%Z. lia.
    - done.
    - lia. }
  { simpl. split; [exists 0%Z; lia | apply filled_0]. }
  { simpl. lia. }
  simpl. apply bool_decide_eq_false in Hc1.
  destruct (for_loop_invariant
    (λ s : Z * array T, (0 ≤ s.1 ≤ n)%Z ∧ filled v res0 (Z.to_nat s.1) s.2)
    (λ s, Z.to_nat (n - s.1))
    (λ s, bool_decide (s.1 < n)%Z)
    (unary_to_scalar op)) with (fuel := Z.to_nat n)
    (s := s1) as (s2 & -> & [Hs2 Hfill2] & Hc2).
  { intros [i out] [Hi Hfill] Hc. cbn [fst snd] in *.
    apply bool_decide_eq_true in Hc.
    destruct (unary_to_scalar_step i out) as (out' & -> & Hfill');
      [lia | done |].
    eexists; split; [done|]. cbn [fst snd].
    split; [split|]; [lia | done | lia]. }
  { split; [lia | done]. }
  { lia. }
  simpl. apply bool_decide_eq_false in Hc2.
  exists s2.2. split; [done|].
  replace n with s2.1 at 1 by lia. done.
Qed.

End unary_vector_op_to_facts.

(** X3.  For a length [n] that fits [std::size_t], an argument of at least
    [n] elements and a result array of at least [n] cells, the two-array
    [unary_vector_op] returns with [result[i] = op(arg[i])] for every
    [i < n]; the cells from [n] on keep their contents, and the stores made
    are those to [0, 1, ..., n - 1], one each. *)
Theorem unary_vector_op_elementwise {A T : Type} (op : A → T) (n : Z)
    (arg : list A) (result : array T) :
  (0 ≤ n < 2 ^ 64)%Z →
  Z.to_nat n ≤ length arg →
  Z.to_nat n ≤ length (cells result) →
  ∃ out,
    unary_vector_op n (of_list arg) result op = Some out ∧
    length (cells out) = length (cells result) ∧
    (∀ i a, i < Z.to_nat n → arg !! i = Some a → load out i = Some (op a)) ∧
    (∀ i, Z.to_nat n ≤ i → cells out !! i = cells result !! i) ∧
    written out = written result ++ seq 0 (Z.to_nat n).
Proof.
  intros Hn Hl Hres.
  destruct (unary_vector_op_filled op arg result n Hn Hl Hres)
    as (out & Hout & Hlen & Hval & Hfr & Hw).
  exists out. split_and!; [done | done | | done | done].
  intros i a Hi Ha. rewrite Hval by done. by rewrite Ha.
Qed.

(** Ten elements, one unrolled block and a remainder of two. *)
Lemma unary_vector_op_elementwise_witness :
  let arg := [1; 2; 3; 4; 5; 6; 7; 8; 9; 10] in
  let result := local_array 11 in
  ∃ out,
    unary_vector_op 10 (of_list arg) result S = Some out ∧
    length (cells out) = length (cells result) ∧
    (∀ i a, i < Z.to_nat 10 → arg !! i = Some a → load out i = Some (S a)) ∧
    (∀ i, Z.to_nat 10 ≤ i → cells out !! i = cells result !! i) ∧
    written out = written result ++ seq 0 (Z.to_nat 10).
Proof.
  intros arg result.
  apply (unary_vector_op_elementwise S 10 arg result).
  - lia.
  - simpl. lia.
  - simpl. lia.
Defined.

(** X4.  For a length [n] that fits [std::size_t] and a result array whose
    first [n] cells are initialised, the in-place [unary_vector_op] returns
    with [op] applied once to each of [result[0..n)]; the cells from [n] on
    keep their contents, and the stores made are those to
    [0, 1, ..., n - 1], one each. *)
Theorem unary_vector_op_in_place {T : Type} (op : T → T) (n : Z)
    (result : array T) :
  (0 ≤ n < 2 ^ 64)%Z →
  (∀ i, i < Z.to_nat n → is_Some (load result i)) →
  ∃ out,
    unary_vector_op_to n result op = Some out ∧
    length (cells out) = length (cells result) ∧
    (∀ i r, i < Z.to_nat n → load result i = Some r →
            load out i = Some (op r)) ∧
    (∀ i, Z.to_nat n ≤ i → cells out !! i = cells result !! i) ∧
    written out = written result ++ seq 0 (Z.to_nat n).
Proof.
  intros Hn Hres.
  destruct (unary_vector_op_to_filled op result n Hn Hres)
    as (out & Hout & Hlen & Hval & Hfr & Hw).
  exists out. split_and!; [done | done | | done | done].
  intros i r Hi Hr. rewrite Hval by done. by rewrite Hr.
Qed.

(** Nine initialised cells followed by an indeterminate one. *)
Lemma unary_vector_op_in_place_witness :
  let result := Array (map Some [1; 2; 3; 4; 5; 6; 7; 8; 9] ++ [None]) [] in
  ∃ out,
    unary_vector_op_to 9 result S = Some out ∧
    length (cells out) = length (cells result) ∧
    (∀ i r, i < Z.to_nat 9 → load result i = Some r →
            load out i = Some (S r)) ∧
    (∀ i, Z.to_nat 9 ≤ i → cells out !! i = cells result !! i) ∧
    written out = written result ++ seq 0 (Z.to_nat 9).
Proof.
  intros result.
  apply (unary_vector_op_in_place S 9 result).
  - lia.
  - intros i Hi. change (Z.to_nat 9) with 9 in Hi.
    do 9 (destruct i as [|i]; [by eexists|]). lia.
Defined.

(** X5.  A value bound with [bind_second] to a value-returning operator is
    passed as the operator's first argument: [unary_vector_op] with
    [bind_second(t, op)] stores [op(t, arg[i])], the very array it stores
    with [bind_first(t, op)].  Bound to an operator that updates its first
    argument, [bind_first] passes the value second and [bind_second] passes
    it last, as the in-place [binary_vector_op] shows. *)
Theorem binders_in_kernels {X A T : Type} (op : X → A → T)
    (op1 : T → X → A → T) (op2 : T → A → X → T) (t : X) (n : Z)
    (arg : list A) (result result_to : array T) :
  (0 ≤ n < 2 ^ 64)%Z →
  Z.to_nat n ≤ length arg →
  Z.to_nat n ≤ length (cells result) →
  (∀ i, i < Z.to_nat n → is_Some (load result_to i)) →
  (∃ out,
     unary_vector_op n (of_list arg) result (bind_second t op) = Some out ∧
     unary_vector_op n (of_list arg) result (bind_first t op) = Some out ∧
     ∀ i a, i < Z.to_nat n → arg !! i = Some a →
            load out i = Some (op t a)) ∧
  (∃ out,
     binary_vector_op_to n (of_list arg) result_to (bind_first_void t op1)
       = Some out ∧
     ∀ i r a, i < Z.to_nat n → load result_to i = Some r →
              arg !! i = Some a → load out i = Some (op1 r t a)) ∧
  (∃ out,
     binary_vector_op_to n (of_list arg) result_to (bind_second_void t op2)
       = Some out ∧
     ∀ i r a, i < Z.to_nat n → load result_to i = Some r →
              arg !! i = Some a → load out i = Some (op2 r a t)).
Proof.
  intros Hn Hl Hres Hto. split_and!.
  - destruct (unary_vector_op_filled (bind_second t op) arg result n
                Hn Hl Hres) as (out & Hout & _ & Hval & _ & _).
    exists out. split_and!; [done | done |].
    intros i a Hi Ha. rewrite Hval by done. by rewrite Ha.
  - destruct (binary_vector_op_to_filled (bind_first_void t op1) arg
                result_to n Hn Hl Hto) as (out & Hout & _ & Hval & _ & _).
    exists out. split; [done|].
    intros i r a Hi Hr Ha. rewrite Hval by done. rewrite Hr. simpl.
    by rewrite Ha.
  - destruct (binary_vector_op_to_filled (bind_second_void t op2) arg
                result_to n Hn Hl Hto) as (out & Hout & _ & Hval & _ & _).
    exists out. split; [done|].
    intros i r a Hi Hr Ha. rewrite Hval by done. rewrite Hr. simpl.
    by rewrite Ha.
Qed.

(** Subtraction with 100 bound: [bind_second] yields [100 - arg[i]]. *)
Lemma binders_in_kernels_witness :
  let arg := [1; 2; 3; 4; 5; 6; 7; 8; 9]%Z in
  let result := local_array 9 in
  let result_to := of_list [0; 0; 0; 0; 0; 0; 0; 0; 0]%Z in
  let op1 := (λ r t a : Z, r + (t - a))%Z in
  let op2 := (λ r a t : Z, r + (a - t))%Z in
  (∃ out,
     unary_vector_op 9 (of_list arg) result (bind_second 100%Z Z.sub)
       = Some out ∧
     unary_vector_op 9 (of_list arg) result (bind_first 100%Z Z.sub)
       = Some out ∧
     ∀ i a, i < Z.to_nat 9 → arg !! i = Some a →
            load out i = Some (100 - a)%Z) ∧
  (∃ out,
     binary_vector_op_to 9 (of_list arg) result_to (bind_first_void 100%Z op1)
       = Some out ∧
     ∀ i r a, i < Z.to_nat 9 → load result_to i = Some r →
              arg !! i = Some a → load out i = Some (op1 r 100%Z a)) ∧
  (∃ out,
     binary_vector_op_to 9 (of_list arg) result_to (bind_second_void 100%Z op2)
       = Some out ∧
     ∀ i r a, i < Z.to_nat 9 → load result_to i = Some r →
              arg !! i = Some a → load out i = Some (op2 r a 100%Z)).
Proof.
  intros arg result result_to op1 op2.
  apply (binders_in_kernels Z.sub op1 op2 100%Z 9 arg result result_to).
  - lia.
  - simpl. lia.
  - simpl. lia.
  - intros i Hi. change (Z.to_nat 9) with 9 in Hi.
    do 9 (destruct i as [|i]; [by eexists|]). lia.
Defined.

(** ** vector_op.h: [gather], the block limit, the two overloads *)

Lemma gather_ok {A : Type} (N : nat) (arg res : array A)
    (ab rb stride : nat) :
  N < 8 →
  (∀ j, j < N → is_Some (load arg (ab + j * stride))) →
  is_Some (load arg (ab + N * stride + 7)) →
  rb + 8 ≤ length (cells res) →
  ∃ res', VectorOpUnwind.gather N arg ab res rb stride = Some res' ∧
    length (cells res') = length (cells res) ∧
    (∀ k, 7 - N ≤ k < 7 → k ≠ 0 →
          cells res' !! (rb + k)
            = cells arg !! (ab + (k - (7 - N)) * stride)) ∧
    cells res' !! rb = cells arg !! (ab + N * stride + 7) ∧
    (∀ j, j ≠ rb → j < rb + (7 - N) ∨ rb + 7 ≤ j →
          cells res' !! j = cells res !! j).
Proof.
  revert res ab. induction N as [|N IH]; intros res ab HN Hgen Hlast Hres.
  - simpl. rewrite offset_eq. change (7 - 0) with 7 in *.
    replace (ab + 0 * stride + 7) with (ab + 7) in * by lia.
    destruct Hlast as [x Hx]. rewrite Hx. simpl.
    rewrite store_Some by lia. eexists; split; [done|]. simpl.
    apply load_Some in Hx. split_and!.
    + by rewrite length_insert.
    + intros k Hk. lia.
    + replace (ab + 0 + 7) with (ab + 7) by lia.
      by rewrite list_lookup_insert_eq by lia.
    + intros j Hj _. by rewrite list_lookup_insert_ne by lia.
  - simpl. rewrite offset_eq.
    destruct (Hgen 0) as [x Hx]; [lia|].
    replace (ab + 0 * stride) with ab in Hx by lia.
    rewrite Hx. simpl. rewrite store_Some by lia. simpl.
    apply load_Some in Hx.
    set (res1 := Array _ _).
    destruct (IH res1 (ab + stride)) as (res' & -> & Hlen & Hk & H0 & Hfr).
    { lia. }
    { intros j Hj. specialize (Hgen (S j) ltac:(lia)).
      by replace (ab + stride + j * stride) with (ab + S j * stride) by lia. }
    { by replace (ab + stride + N * stride + 7)
        with (ab + S N * stride + 7) by lia. }
    { subst res1. simpl. rewrite length_insert. lia. }
    eexists; split; [done|].
    subst res1; simpl in *. rewrite length_insert in Hlen.
    split_and!.
    + done.
    + intros k Hk' Hk0. destruct (decide (k = 6 - N)) as [->|Hne].
      * rewrite Hfr by lia. rewrite list_lookup_insert_eq by lia.
        by replace (ab + (6 - N - (6 - N)) * stride) with ab by lia.
      * rewrite Hk by lia. f_equal.
        replace (k - (6 - N)) with (S (k - (7 - N))) by lia. lia.
    + rewrite H0. f_equal. lia.
    + intros j Hj Hout. rewrite Hfr by lia.
      by rewrite list_lookup_insert_ne by lia.
Qed.

(** X6.  For every stride, [VecOpUnwindN::gather] returns once [arg] can be
    read at [0, stride, ..., 6 * stride] and at [7 * stride + 7] and
    [result] has eight cells; it then holds [arg[k * stride]] in
    [result[k]] for [k] from 1 to 6 and [arg[7 * stride + 7]] in
    [result[0]], and has left [result[7]] and every cell outside the block
    as it was. *)
Theorem gather_block {A : Type} (arg result : array A) (rb stride : nat) :
  (∀ k, k < 7 → is_Some (load arg (k * stride))) →
  is_Some (load arg (7 * stride + 7)) →
  rb + 8 ≤ length (cells result) →
  ∃ out,
    VectorOpUnwind.gather VecOpUnwindN arg 0 result rb stride = Some out ∧
    length (cells out) = length (cells result) ∧
    (∀ k, 1 ≤ k ≤ 6 → load out (rb + k) = load arg (k * stride)) ∧
    load out rb = load arg (7 * stride + 7) ∧
    (∀ j, j < rb ∨ rb + 7 ≤ j → cells out !! j = cells result !! j).
Proof.
  intros Hgen Hlast Hres.
  destruct (gather_ok 7 arg result 0 rb stride)
    as (out & Hout & Hlen & Hk & H0 & Hfr); [lia | | | done |].
  { intros j Hj. by apply Hgen. }
  { done. }
  exists out. split_and!; [done | done | | |].
  - intros k Hk'. unfold load. rewrite Hk by lia.
    by replace (0 + (k - (7 - 7)) * stride) with (k * stride) by lia.
  - unfold load. by rewrite H0.
  - intros j Hj. apply Hfr; lia.
Qed.

(** Stride 2 over an array of 22 cells. *)
Lemma gather_block_witness :
  let arg := of_list (seq 100 22) in
  let result := of_list (replicate 9 0) in
  ∃ out,
    VectorOpUnwind.gather VecOpUnwindN arg 0 result 1 2 = Some out ∧
    length (cells out) = length (cells result) ∧
    (∀ k, 1 ≤ k ≤ 6 → load out (1 + k) = load arg (k * 2)) ∧
    load out 1 = load arg (7 * 2 + 7) ∧
    (∀ j, j < 1 ∨ 1 + 7 ≤ j → cells out !! j = cells result !! j).
Proof.
  intros arg result.
  apply (gather_block arg result 1 2).
  - intros k Hk. do 7 (destruct k as [|k]; [by eexists|]). lia.
  - by eexists.
  - simpl. lia.
Defined.

(** X7.  For every [n] that fits [std::size_t], the block limit
    [n & index_mask::value] is a multiple of [TILEDARRAY_LOOP_UNWIND] that
    does not exceed [n] and leaves fewer than [TILEDARRAY_LOOP_UNWIND]
    elements to the remainder loop. *)
Theorem block_limit (n : Z) :
  (0 ≤ n < 2 ^ 64)%Z →
  (Z.land n index_mask mod Z.of_nat TILEDARRAY_LOOP_UNWIND = 0 ∧
   0 ≤ Z.land n index_mask ≤ n ∧
   n - Z.land n index_mask < Z.of_nat TILEDARRAY_LOOP_UNWIND)%Z.
Proof.
  intros Hn. rewrite land_index_mask by done.
  change (Z.of_nat TILEDARRAY_LOOP_UNWIND) with 8%Z.
  split; [|Z.div_mod_to_equations; lia].
  rewrite Z.mul_comm. by apply Z.mod_mul.
Qed.

Lemma block_limit_witness :
  (Z.land 19 index_mask mod Z.of_nat TILEDARRAY_LOOP_UNWIND = 0 ∧
   0 ≤ Z.land 19 index_mask ≤ 19 ∧
   19 - Z.land 19 index_mask < Z.of_nat TILEDARRAY_LOOP_UNWIND)%Z.
Proof. apply (block_limit 19). lia. Defined.

(** X9.  The in-place [binary_vector_op] and the three-array one agree: run
    on a result array holding [vals], the in-place overload leaves in every
    [result[i]], [i < n], the value that the three-array overload stores
    there when it is given [vals] as its left operand and the same [arg] as
    its right operand. *)
Theorem binary_vector_op_in_place_agrees {A T : Type} (op : T → A → T)
    (n : Z) (arg : list A) (vals : list T) (fresh : array T) :
  (0 ≤ n < 2 ^ 64)%Z →
  Z.to_nat n ≤ length arg →
  Z.to_nat n ≤ length vals →
  Z.to_nat n ≤ length (cells fresh) →
  ∃ out1 out2,
    binary_vector_op_to n (of_list arg) (of_list vals) op = Some out1 ∧
    binary_vector_op n (of_list vals) (of_list arg) fresh op = Some out2 ∧
    ∀ i, i < Z.to_nat n →
         is_Some (load out1 i) ∧ load out1 i = load out2 i.
Proof.
  intros Hn Harg Hvals Hfresh.
  assert (Hto : ∀ j, j < Z.to_nat n → is_Some (load (of_list vals) j)).
  { intros j Hj. rewrite load_of_list. apply lookup_lt_is_Some_2. lia. }
  destruct (binary_vector_op_to_filled op arg (of_list vals) n Hn Harg Hto)
    as (out1 & Hout1 & _ & Hv1 & _ & _).
  destruct (binary_vector_op_filled op vals arg fresh n Hn Hvals Harg Hfresh)
    as (out2 & Hout2 & _ & Hv2 & _ & _).
  exists out1, out2. split_and!; [done | done |].
  intros i Hi. rewrite Hv1, Hv2 by done.
  rewrite load_of_list, lookup_zip_with.
  destruct (lookup_lt_is_Some_2 vals i) as [x ->]; [lia|].
  destruct (lookup_lt_is_Some_2 arg i) as [a ->]; [lia|].
  simpl. split; [by eexists | done].
Qed.

(** Nine elements, added in place and into a fresh array. *)
Lemma binary_vector_op_in_place_agrees_witness :
  let arg := [1; 2; 3; 4; 5; 6; 7; 8; 9] in
  let vals := [10; 20; 30; 40; 50; 60; 70; 80; 90] in
  let fresh := local_array 9 in
  ∃ out1 out2,
    binary_vector_op_to 9 (of_list arg) (of_list vals) Nat.add = Some out1 ∧
    binary_vector_op 9 (of_list vals) (of_list arg) fresh Nat.add
      = Some out2 ∧
    ∀ i, i < Z.to_nat 9 →
         is_Some (load out1 i) ∧ load out1 i = load out2 i.
Proof.
  intros arg vals fresh.
  apply (binary_vector_op_in_place_agrees Nat.add 9 arg vals fresh).
  - lia.
  - simpl. lia.
  - simpl. lia.
  - simpl. lia.
Defined.

(** ** input_data.cpp: degenerate ranges, cuts, [trange] *)

Lemma for_loop_stuck {S : Type} (Inv : S → Prop) (cond : S → bool)
    (body : S → option S) :
  (∀ s, Inv s → cond s = true) →
  (∀ s s', Inv s → body s = Some s' → Inv s') →
  ∀ fuel s, Inv s → for_loop fuel cond body s = None.
Proof.
  intros Hc Hb fuel. induction fuel as [|fuel IH]; intros s HI; simpl.
  - by rewrite (Hc s HI).
  - rewrite (Hc s HI). destruct (body s) as [s'|] eqn:Hs; [|done].
    simpl. apply IH. by eapply Hb.
Qed.

Lemma make_trange1_empty {V : Type} `{EqDecision V} (labels : list V)
    (first : nat) :
  first < length labels → make_trange1 labels first first = Some [first; first].
Proof.
  intros Hf. unfold make_trange1.
  destruct (lookup_lt_is_Some_2 labels first) as [cur ->]; [done|]. simpl.
  rewrite for_loop_exit; [done|].
  apply bool_decide_eq_false_2. cbn [fst snd]. by intros ?.
Qed.

Lemma make_trange1_undefined {V : Type} `{EqDecision V} (labels : list V)
    (first last : nat) :
  length labels ≤ first ∨ last < first ∨ length labels < last →
  make_trange1 labels first last = None.
Proof.
  intros Hbad. unfold make_trange1.
  destruct (labels !! first) as [cur|] eqn:Hcur; [|done]. simpl.
  apply lookup_lt_Some in Hcur.
  rewrite (for_loop_stuck
    (λ s : nat * V * list nat,
       last < s.1.1 ∨ (s.1.1 ≤ length labels ∧ length labels < last)));
    [done | | |].
  - intros s Hs. apply bool_decide_eq_true_2. lia.
  - intros [[i c] t] s' Hs. unfold make_trange1_pass. cbn [fst snd] in *.
    destruct (labels !! i) as [x|] eqn:Hx; [|done]. simpl.
    apply lookup_lt_Some in Hx.
    destruct (decide (x ≠ c)); intros [= <-]; cbn [fst snd]; lia.
  - cbn [fst snd]. lia.
Qed.

Lemma TiledRange1_new_empty (first : nat) :
  TiledRange1_new [first; first] = None.
Proof.
  unfold TiledRange1_new. rewrite decide_False; [done|].
  intros Hs. apply StronglySorted_cons in Hs as [Hall _].
  apply Forall_cons in Hall as [? _]. lia.
Qed.

Lemma make_trange1_range_nonempty {V : Type} `{EqDecision V}
    (labels : list V) (first last : nat) :
  is_Some (make_trange1_range labels first last) →
  first < last ≤ length labels.
Proof.
  intros Hs.
  destruct (decide (first ≤ last ≤ length labels ∧ first < length labels))
    as [[Hfl Hf]|Hn].
  - destruct (decide (first = last)) as [<-|]; [|lia].
    unfold make_trange1_range in Hs.
    rewrite make_trange1_empty in Hs by done. simpl in Hs.
    rewrite TiledRange1_new_empty in Hs. by destruct Hs.
  - unfold make_trange1_range in Hs.
    rewrite make_trange1_undefined in Hs by lia. by destruct Hs.
Qed.

Lemma make_trange1_range_result {V : Type} `{EqDecision V}
    (labels : list V) (first last : nat) :
  first < last ≤ length labels →
  ∃ interior,
    make_trange1 labels first last = Some (first :: interior ++ [last]) ∧
    make_trange1_range labels first last
      = Some (MkTiledRange1 (Z.of_nat <$> first :: interior ++ [last])).
Proof.
  intros [Hfl Hlast].
  destruct (make_trange1_result labels first last Hfl Hlast)
    as (interior & Hm & _ & Hsort).
  exists interior. split; [done|].
  unfold make_trange1_range. rewrite Hm. simpl.
  unfold TiledRange1_new. by rewrite decide_True.
Qed.

(** X10.  [make_trange1] returns a range exactly for a non-empty sub-range
    [first < last] that lies inside the label sequence, and the range then
    has the boundaries of the loop.  A start at or past the end of the
    labels, an end before the start and an end past the labels leave it
    without a result (the iterator is dereferenced outside the sequence);
    for the empty sub-range at a readable position the loop leaves the two
    boundaries [first, first], which are not strictly increasing, so that
    the constructor of [TiledRange1] has no range to give. *)
Theorem make_trange1_range_defined {V : Type} `{EqDecision V}
    (labels : list V) (first last : nat) :
  (is_Some (make_trange1_range labels first last)
     ↔ first < last ≤ length labels) ∧
  (∀ tr, make_trange1_range labels first last = Some tr →
         ∃ interior,
           make_trange1 labels first last = Some (first :: interior ++ [last]) ∧
           boundaries tr = Z.of_nat <$> first :: interior ++ [last]) ∧
  (first = last → first < length labels →
     make_trange1 labels first last = Some [first; first] ∧
     TiledRange1_new [first; first] = None).
Proof.
  split_and!.
  - split; [apply make_trange1_range_nonempty|]. intros Hfl.
    destruct (make_trange1_range_result labels first last Hfl)
      as (interior & _ & ->).
    by eexists.
  - intros tr Htr.
    destruct (make_trange1_range_result labels first last)
      as (interior & Hm & Hr).
    { apply make_trange1_range_nonempty. by eexists. }
    exists interior. split; [done|].
    rewrite Hr in Htr. by injection Htr as <-.
  - intros <- Hf.
    split; [by apply make_trange1_empty | apply TiledRange1_new_empty].
Qed.

Lemma sorted_lt_ext (l k : list nat) :
  StronglySorted lt l → StronglySorted lt k →
  (∀ x, x ∈ l ↔ x ∈ k) → l = k.
Proof.
  intros Hl Hk Hext.
  assert (HND : ∀ m : list nat, StronglySorted lt m → NoDup m).
  { intros m Hm. induction Hm as [|x m Hm IH Hall]; [constructor|].
    apply NoDup_cons. split; [|done].
    intros Hx. rewrite Forall_forall in Hall. specialize (Hall x Hx). lia. }
  apply (StronglySorted_unique_strong lt); [|done|done|].
  - intros x1 x2 _ _ ? ?. lia.
  - apply NoDup_Permutation; auto.
Qed.

Lemma make_trange1_cut {V : Type} `{EqDecision V} (labels : list V)
    (a b c : nat) :
  a < b → b < c → c ≤ length labels →
  ∃ i1 i2,
    make_trange1 labels a b = Some (a :: i1 ++ [b]) ∧
    make_trange1 labels b c = Some (b :: i2 ++ [c]) ∧
    make_trange1 labels a c
      = Some (a :: i1
                ++ (if decide (labels !! b ≠ labels !! (b - 1))
                    then [b] else [])
                ++ i2 ++ [c]).
Proof.
  intros Hab Hbc Hc.
  destruct (make_trange1_result labels a b) as (i1 & H1 & M1 & S1);
    [lia | lia |].
  destruct (make_trange1_result labels b c) as (i2 & H2 & M2 & S2);
    [lia | lia |].
  destruct (make_trange1_result labels a c) as (i & H3 & M3 & S3);
    [lia | lia |].
  exists i1, i2. split_and!; [done | done |].
  rewrite H3. do 2 f_equal.
  set (cut := if decide (labels !! b ≠ labels !! (b - 1)) then [b] else []).
  rewrite !(assoc_L (++)). f_equal. rewrite <- (assoc_L (++)).
  assert (Mcut : ∀ x, x ∈ cut ↔ x = b ∧ labels !! b ≠ labels !! (b - 1)).
  { intros x. unfold cut. destruct (decide _) as [Hd|Hd].
    - rewrite list_elem_of_singleton. split; [by intros ->|by intros [-> _]].
    - rewrite elem_of_nil. split; [done|]. by intros [_ ?]. }
  apply StronglySorted_cons in S1 as [_ S1].
  apply StronglySorted_app_1_l in S1.
  apply StronglySorted_cons in S2 as [_ S2].
  apply StronglySorted_app_1_l in S2.
  apply StronglySorted_cons in S3 as [_ S3].
  apply StronglySorted_app_1_l in S3.
  apply sorted_lt_ext; [done | |].
  - apply StronglySorted_app. split_and!; [|done|].
    + intros x1 x2 [Hx1 _]%M1 [[-> _]%Mcut|[Hx2 _]%M2]%elem_of_app; lia.
    + apply StronglySorted_app. split_and!; [|unfold cut|done].
      * intros x1 x2 [-> _]%Mcut [Hx2 _]%M2. lia.
      * destruct (decide _); repeat constructor.
  - intros x. rewrite M3, !elem_of_app, M1, Mcut, M2.
    split.
    + intros [Hx Hch].
      destruct (decide (x < b)); [left; split; [lia|done]|].
      destruct (decide (x = b)) as [->|]; [right; left; done|].
      right; right. split; [lia|done].
    + intros [[Hx Hch]|[[-> Hch]|[Hx Hch]]]; (split; [lia|done]).
Qed.

(** X11.  Cutting a sub-range in two adds at most the cut: for
    [a < b < c], the boundaries that [make_trange1] returns for [[a, c)] are
    those it returns for [[a, b)] followed by those for [[b, c)], with [b]
    kept once when the label changes at [b] and dropped when it does not. *)
Theorem make_trange1_split {V : Type} `{EqDecision V} (labels : list V)
    (a b c : nat) :
  a < b → b < c → c ≤ length labels →
  ∃ i1 i2,
    make_trange1 labels a b = Some (a :: i1 ++ [b]) ∧
    make_trange1 labels b c = Some (b :: i2 ++ [c]) ∧
    make_trange1 labels a c
      = Some (a :: i1
                ++ (if decide (labels !! b ≠ labels !! (b - 1))
                    then [b] else [])
                ++ i2 ++ [c]).
Proof. apply make_trange1_cut. Qed.

(** Labels [0 0 1 1 1 2], cut at 3 (inside a run of equal labels). *)
Lemma make_trange1_split_witness :
  let labels := [0; 0; 1; 1; 1; 2] in
  ∃ i1 i2,
    make_trange1 labels 0 3 = Some (0 :: i1 ++ [3]) ∧
    make_trange1 labels 3 6 = Some (3 :: i2 ++ [6]) ∧
    make_trange1 labels 0 6
      = Some (0 :: i1
                ++ (if decide (labels !! 3 ≠ labels !! (3 - 1))
                    then [3] else [])
                ++ i2 ++ [6]).
Proof.
  intros labels. apply (make_trange1_split labels 0 3 6).
  - lia.
  - lia.
  - simpl. lia.
Defined.

(** X12.  With [nmo_] labels stored for spin [s] and [0 < nocc < nmo_],
    [trange(s, ov1, ov2)] returns for every choice of [ov1] and [ov2]; each
    dimension depends on its own selector only; the occupied range runs
    from 0 to [nocc] and the virtual range from [nocc] to [nmo_], both with
    strictly increasing boundaries; and the two together hold the
    boundaries of the whole label sequence, with [nocc] as a boundary
    whether or not the label changes there. *)
Theorem trange_occ_vir {V : Type} `{EqDecision V} (d : InputData V)
    (s : Spin) :
  let spin := match s with alpha => obs_mosym_alpha_ d
                         | beta => obs_mosym_beta_ d end in
  let nocc := match s with alpha => nocc_act_alpha_ d
                         | beta => nocc_act_beta_ d end in
  length spin = nmo_ d → 0 < nocc → nocc < nmo_ d →
  ∃ o v,
    let range := λ ov, match ov with
                       | occ => 0 :: o ++ [nocc]
                       | vir => nocc :: v ++ [nmo_ d]
                       end in
    (∀ ov1 ov2, trange d s ov1 ov2 = Some [range ov1; range ov2]) ∧
    StronglySorted lt (range occ) ∧ StronglySorted lt (range vir) ∧
    make_trange1 spin 0 (nmo_ d)
      = Some (0 :: o
                ++ (if decide (spin !! nocc ≠ spin !! (nocc - 1))
                    then [nocc] else [])
                ++ v ++ [nmo_ d]).
Proof.
  intros spin nocc Hlen H0 Hn.
  destruct (make_trange1_result spin 0 nocc) as (o & Ho & _ & So);
    [lia | lia |].
  destruct (make_trange1_result spin nocc (nmo_ d)) as (v & Hv & _ & Sv);
    [lia | lia |].
  destruct (make_trange1_cut spin 0 nocc (nmo_ d))
    as (o' & v' & Ho' & Hv' & Hall); [lia | lia | lia |].
  assert (o' = o) as ->.
  { rewrite Ho in Ho'. injection Ho' as Ho'. by apply app_inv_tail in Ho'. }
  assert (v' = v) as ->.
  { rewrite Hv in Hv'. injection Hv' as Hv'. by apply app_inv_tail in Hv'. }
  exists o, v. cbv zeta. split_and!; [|done|done|done].
  intros ov1 ov2. unfold trange. fold spin nocc. cbv zeta.
  destruct ov1, ov2; rewrite ?Ho, ?Hv; simpl; by rewrite ?Ho, ?Hv.
Qed.

(** Six alpha orbitals with labels [0 0 1 1 1 2], three of them occupied. *)
Lemma trange_occ_vir_witness :
  let d := MkInputData 6 3 2 [0; 0; 1; 1; 1; 2] [0; 1; 1; 1; 2; 2] in
  ∃ o v,
    let range := λ ov, match ov with
                       | occ => 0 :: o ++ [3]
                       | vir => 3 :: v ++ [6]
                       end in
    (∀ ov1 ov2, trange d alpha ov1 ov2 = Some [range ov1; range ov2]) ∧
    StronglySorted lt (range occ) ∧ StronglySorted lt (range vir) ∧
    make_trange1 [0; 0; 1; 1; 1; 2] 0 6
      = Some (0 :: o
                ++ (if decide ([0; 0; 1; 1; 1; 2] !! 3
                               ≠ [0; 0; 1; 1; 1; 2] !! (3 - 1))
                    then [3] else [])
                ++ v ++ [6]).
Proof.
  intros d. apply (trange_occ_vir d alpha).
  - reflexivity.
  - simpl. lia.
  - simpl. lia.
Defined.

(** X13.  The ends of the orbital count.  With no virtual orbital
    ([nocc = nmo_], all [nmo_] labels stored) every [trange] call that asks
    for a virtual dimension has no result: [make_trange1] reads the label at
    the end of the sequence before its loop.  With no occupied orbital
    ([nocc = 0]) every call that asks for an occupied dimension has no
    result either: where there is a label to read, the loop leaves the
    boundaries 0, 0, which the constructor of [TiledRange1] does not
    take. *)
Theorem trange_ranges_degenerate {V : Type} `{EqDecision V}
    (d : InputData V) (s : Spin) :
  let spin := match s with alpha => obs_mosym_alpha_ d
                         | beta => obs_mosym_beta_ d end in
  let nocc := match s with alpha => nocc_act_alpha_ d
                         | beta => nocc_act_beta_ d end in
  length spin = nmo_ d →
  (nocc = nmo_ d →
     ∀ ov, trange_ranges d s vir ov = None ∧
           trange_ranges d s ov vir = None) ∧
  (nocc = 0 →
     (0 < nmo_ d → make_trange1 spin 0 nocc = Some [0; 0]) ∧
     ∀ ov, trange_ranges d s occ ov = None ∧
           trange_ranges d s ov occ = None).
Proof.
  intros spin nocc Hlen.
  assert (Hnone : ∀ first last ov,
    make_trange1_range spin first last = None →
    (match ov with occ => 0 | vir => nocc end = first ∧
     match ov with occ => nocc | vir => nmo_ d end = last) →
    ∀ ov', trange_ranges d s ov ov' = None ∧ trange_ranges d s ov' ov = None).
  { intros first last ov Hr [Hf Hl] ov'.
    unfold trange_ranges. fold spin nocc. cbv zeta.
    rewrite Hf, Hl, Hr. split; [done|].
    match goal with
    | |- ?m ≫= _ = None => destruct m; reflexivity
    end. }
  split.
  - intros Hnocc. apply (Hnone nocc (nmo_ d) vir); [|done].
    unfold make_trange1_range.
    by rewrite make_trange1_undefined by lia.
  - intros Hnocc. split.
    + intros Hnmo. rewrite Hnocc. apply make_trange1_empty. lia.
    + apply (Hnone 0 nocc occ); [|done].
      apply eq_None_not_Some. intros Hs.
      apply make_trange1_range_nonempty in Hs. lia.
Qed.

(** Three orbitals, all occupied for alpha, none for beta. *)
Lemma trange_ranges_degenerate_witness :
  let d := MkInputData 3 3 0 [0; 0; 1] [0; 1; 1] in
  ((3 = 3 →
      ∀ ov, trange_ranges d alpha vir ov = None ∧
            trange_ranges d alpha ov vir = None) ∧
   (3 = 0 →
      (0 < 3 → make_trange1 [0; 0; 1] 0 3 = Some [0; 0]) ∧
      ∀ ov, trange_ranges d alpha occ ov = None ∧
            trange_ranges d alpha ov occ = None)) ∧
  ((0 = 3 →
      ∀ ov, trange_ranges d beta vir ov = None ∧
            trange_ranges d beta ov vir = None) ∧
   (0 = 0 →
      (0 < 3 → make_trange1 [0; 1; 1] 0 0 = Some [0; 0]) ∧
      ∀ ov, trange_ranges d beta occ ov = None ∧
            trange_ranges d beta ov occ = None)).
Proof.
  intros d. split.
  - apply (trange_ranges_degenerate d alpha). reflexivity.
  - apply (trange_ranges_degenerate d beta). reflexivity.
Defined.

(** X14.  The four-dimensional [trange] is two two-dimensional ones
    interleaved: dimensions 1 and 3 are those of [trange(s1, ov1, ov3)],
    dimensions 2 and 4 those of [trange(s2, ov2, ov4)], and it has a result
    exactly when both have one. *)
Theorem trange4_interleaves {V : Type} `{EqDecision V} (d : InputData V)
    (s1 s2 : Spin) (ov1 ov2 ov3 ov4 : RangeOV) (t1 t2 t3 t4 : list nat) :
  (trange4 d s1 s2 ov1 ov2 ov3 ov4 = Some [t1; t2; t3; t4]
   ↔ trange d s1 ov1 ov3 = Some [t1; t3] ∧
     trange d s2 ov2 ov4 = Some [t2; t4]) ∧
  (is_Some (trange4 d s1 s2 ov1 ov2 ov3 ov4)
   ↔ is_Some (trange d s1 ov1 ov3) ∧ is_Some (trange d s2 ov2 ov4)).
Proof.
  unfold trange4, trange. cbv zeta.
  repeat match goal with
  | |- context [make_trange1 ?l ?f ?t] =>
      generalize (make_trange1 l f t); intros [?|]
  end; simpl; (split; split); intros Hr;
    repeat match goal with
    | H : _ ∧ _ |- _ => destruct H
    | H : is_Some None |- _ => by destruct H
    end; simplify_eq; try done; try (split; by eexists); by eexists.
Qed.

(** ** tile.h: shared ownership *)

Section shared_facts.
Context {T : Type}.
Implicit Types (h : shared.store T) (a b : shared.Tile).

Lemma tensor_make_shared h (x : T) b :
  is_Some (shared.tensor h b) →
  shared.tensor (h ++ [x]) b = shared.tensor h b ∧
  shared.pimpl_ b ≠ Some (length h).
Proof.
  unfold shared.tensor. destruct b as [[p|]]; simpl; [|by intros [? [=]]].
  intros Hp. pose proof (lookup_lt_is_Some_1 _ _ Hp) as Hlt.
  split; [by rewrite lookup_app_l | intros [= ->]; lia].
Qed.

Lemma tensor_new h (x : T) :
  shared.tensor (h ++ [x]) (shared.MkTile (Some (length h))) = Some x.
Proof.
  unfold shared.tensor. simpl.
  by rewrite lookup_app_r, Nat.sub_diag by lia.
Qed.

Lemma tensor_insert h (p : shared.ptr) (x : T) b :
  p < length h →
  shared.tensor (<[p := x]> h) b
    = if decide (shared.pimpl_ b = Some p) then Some x
      else shared.tensor h b.
Proof.
  intros Hp. unfold shared.tensor. destruct b as [[q|]]; simpl.
  - destruct (decide (Some q = Some p)) as [[= ->]|Hne].
    + by rewrite list_lookup_insert_eq.
    + rewrite list_lookup_insert_ne; [done|]. by intros ->.
  - done.
Qed.

Lemma tensor_Some_ptr h a (x : T) :
  shared.tensor h a = Some x →
  ∃ p, shared.pimpl_ a = Some p ∧ h !! p = Some x ∧ p < length h.
Proof.
  unfold shared.tensor. destruct a as [[p|]]; simpl; [|done].
  intros Hp. exists p. split_and!; [done | done |].
  by eapply lookup_lt_Some.
Qed.

End shared_facts.

Lemma assign_through {T : Type} (h : shared.store T)
    (a : shared.Tile) (x : T) :
  is_Some (shared.tensor h a) →
  ∃ h',
    shared.assign h a x = Some h' ∧
    shared.tensor h' (shared.Tile_copy a) = Some x ∧
    ∀ b, shared.tensor h' b
         = if decide (shared.pimpl_ b = shared.pimpl_ a) then Some x
           else shared.tensor h b.
Proof.
  intros [y Hy].
  destruct (tensor_Some_ptr h a y Hy) as (p & Hp & Hhp & Hlt).
  unfold shared.assign. rewrite Hp. simpl. rewrite Hhp. simpl.
  eexists; split; [done|].
  split.
  - rewrite tensor_insert by done. unfold shared.Tile_copy. simpl.
    rewrite Hp. by rewrite decide_True.
  - intros b. by rewrite tensor_insert.
Qed.

(** X15.  [operator=(const tensor_type&)] writes through the pointer: on a
    tile that holds a tensor it returns, and afterwards every tile that
    holds the same pointer (a copy made by the defaulted copy constructor
    or copy assignment among them) has the assigned tensor, while every
    other tile has the tensor it had. *)
Theorem tile_assign_writes_through {T : Type} (h : shared.store T)
    (a : shared.Tile) (x : T) :
  is_Some (shared.tensor h a) →
  ∃ h',
    shared.assign h a x = Some h' ∧
    shared.tensor h' (shared.Tile_copy a) = Some x ∧
    ∀ b, shared.tensor h' b
         = if decide (shared.pimpl_ b = shared.pimpl_ a) then Some x
           else shared.tensor h b.
Proof. apply assign_through. Qed.

(** Two tiles on one tensor and a third on its own. *)
Lemma tile_assign_writes_through_witness :
  let h := [10; 20]%Z in
  let a := shared.MkTile (Some 0) in
  ∃ h',
    shared.assign h a 7%Z = Some h' ∧
    shared.tensor h' (shared.Tile_copy a) = Some 7%Z ∧
    ∀ b, shared.tensor h' b
         = if decide (shared.pimpl_ b = shared.pimpl_ a) then Some 7%Z
           else shared.tensor h b.
Proof.
  intros h a. apply (tile_assign_writes_through h a 7%Z). by eexists.
Defined.

(** X16.  [clone] gives a tile of its own: the clone of a tile that holds
    a tensor has a pointer that no tile had before and the same tensor, all
    earlier tiles keep their tensors, and a later assignment of a tensor to
    the original reaches the copies of the original but not the clone. *)
Theorem tile_clone_independent {T : Type} (h : shared.store T)
    (a : shared.Tile) (x : T) :
  shared.tensor h a = Some x →
  ∃ c h1,
    shared.clone h a = Some (c, h1) ∧
    shared.tensor h1 c = Some x ∧
    (∀ b, is_Some (shared.tensor h b) →
          shared.tensor h1 b = shared.tensor h b ∧
          shared.pimpl_ b ≠ shared.pimpl_ c) ∧
    ∀ y, ∃ h2,
      shared.assign h1 a y = Some h2 ∧
      shared.tensor h2 (shared.Tile_copy a) = Some y ∧
      shared.tensor h2 c = Some x.
Proof.
  intros Hx.
  unfold shared.clone. rewrite Hx. simpl.
  eexists _, _. split; [done|].
  pose proof (tensor_new h x) as Hc.
  split_and!; [done | |].
  - intros b Hb. by apply tensor_make_shared.
  - intros y.
    destruct (tensor_make_shared h x a) as [Ha Hne]; [by eexists|].
    destruct (assign_through (h ++ [x]) a y)
      as (h2 & Hh2 & Hcopy & Hall).
    { rewrite Ha. by eexists. }
    exists h2. split_and!; [done | done |].
    rewrite Hall. simpl. rewrite decide_False by done. done.
Qed.

Lemma tile_clone_independent_witness :
  let h := [10; 20]%Z in
  let a := shared.MkTile (Some 1) in
  ∃ c h1,
    shared.clone h a = Some (c, h1) ∧
    shared.tensor h1 c = Some 20%Z ∧
    (∀ b, is_Some (shared.tensor h b) →
          shared.tensor h1 b = shared.tensor h b ∧
          shared.pimpl_ b ≠ shared.pimpl_ c) ∧
    ∀ y, ∃ h2,
      shared.assign h1 a y = Some h2 ∧
      shared.tensor h2 (shared.Tile_copy a) = Some y ∧
      shared.tensor h2 c = Some 20%Z.
Proof.
  intros h a. apply (tile_clone_independent h a 20%Z). reflexivity.
Defined.

(** X17.  The tile functions that return a tile compute on the tensors and
    share nothing: [subt(left, right, factor)] on tiles of the store has a
    result exactly when [subt] with a factor on the tensors they hold has
    one; the tile returned holds that result under a pointer that no tile
    had before, and every earlier tile, [left] and [right] among them, keeps
    its tensor. *)
Theorem shared_subt_scaled_refines {T S : Type} `{TensorInterface T S}
    (h : shared.store T) (left right : shared.Tile) (factor : S) :
  match subt_scaled (tile_value h left) (tile_value h right) factor with
  | Some v =>
      ∃ res h',
        shared.binary_tile (λ l r, tensor_subt_scaled l r factor) h left right
          = Some (res, h') ∧
        tile_value h' res = v ∧
        ∀ b, is_Some (shared.tensor h b) →
             shared.tensor h' b = shared.tensor h b ∧
             shared.pimpl_ b ≠ shared.pimpl_ res
  | None =>
      shared.binary_tile (λ l r, tensor_subt_scaled l r factor) h left right
        = None
  end.
Proof.
  unfold subt_scaled, shared.binary_tile, tile_value, tensor. simpl.
  destruct (shared.tensor h left) as [l|]; [|done]. simpl.
  destruct (shared.tensor h right) as [r|]; [|done]. simpl.
  destruct (tensor_subt_scaled l r factor) as [t|]; [|done]. simpl.
  eexists _, _. split; [done|]. split.
  - unfold make_tile. by rewrite tensor_new.
  - intros b Hb. by apply tensor_make_shared.
Qed.

(** X18.  The tile functions that work in place write through the pointer
    of [result]: when [result] and [arg] hold tensors and the tensor
    function accepts them, [subt_to(result, arg)] and its like return
    [result] itself, every tile that holds the pointer of [result] then has
    the updated tensor ([arg] too, when it is such a tile), and every other
    tile keeps its tensor. *)
Theorem tile_to_writes_through {T : Type} (f_to : T → T → option T)
    (h : shared.store T) (result arg : shared.Tile) (r a r' : T) :
  shared.tensor h result = Some r →
  shared.tensor h arg = Some a →
  f_to r a = Some r' →
  ∃ h',
    shared.binary_tile_to f_to h result arg = Some (result, h') ∧
    length h' = length h ∧
    ∀ b, shared.tensor h' b
         = if decide (shared.pimpl_ b = shared.pimpl_ result) then Some r'
           else shared.tensor h b.
Proof.
  intros Hr Ha Hf.
  destruct (tensor_Some_ptr h result r Hr) as (p & Hp & _ & Hlt).
  unfold shared.binary_tile_to. rewrite Hr, Ha. simpl. rewrite Hf. simpl.
  rewrite Hp. simpl. eexists; split; [done|].
  split; [by rewrite length_insert|].
  intros b. by rewrite tensor_insert.
Qed.

(** [subt_to] on integers, [result] and [arg] on different tensors. *)
Lemma tile_to_writes_through_witness :
  let f_to := λ x y : Z, Some (x - y)%Z in
  let h := [10; 3]%Z in
  let result := shared.MkTile (Some 0) in
  let arg := shared.MkTile (Some 1) in
  ∃ h',
    shared.binary_tile_to f_to h result arg = Some (result, h') ∧
    length h' = length h ∧
    ∀ b, shared.tensor h' b
         = if decide (shared.pimpl_ b = shared.pimpl_ result) then Some 7%Z
           else shared.tensor h b.
Proof.
  intros f_to h result arg.
  apply (tile_to_writes_through f_to h result arg 10%Z 3%Z 7%Z);
    reflexivity.
Defined.

(** X19.  A default-constructed tile holds no tensor: [tensor()], the
    assignment of a tensor, [clone] and the tile functions with it as an
    operand have no result (the null pointer is dereferenced); writing it to
    an archive does return, and writes the flag alone. *)
Theorem tile_null_pointer {T : Type} (h : shared.store T) (t other : shared.Tile)
    (x : T) (f : T → T → option T) (ar : list (shared.archive_item T)) :
  shared.pimpl_ t = None →
  shared.tensor h t = None ∧
  shared.assign h t x = None ∧
  shared.clone h t = None ∧
  shared.binary_tile f h t other = None ∧
  shared.binary_tile f h other t = None ∧
  shared.binary_tile_to f h t other = None ∧
  shared.binary_tile_to f h other t = None ∧
  shared.serialize_out h t ar = Some (ar ++ [shared.ar_bool true]).
Proof.
  intros Ht.
  assert (Hn : shared.tensor h t = None) by (unfold shared.tensor; by rewrite Ht).
  unfold shared.assign, shared.clone, shared.binary_tile,
    shared.binary_tile_to, shared.serialize_out.
  rewrite Hn, Ht. simpl.
  split_and!; try done; by destruct (shared.tensor h other).
Qed.

Lemma tile_null_pointer_witness :
  let h := [10; 3]%Z in
  let t := @shared.Tile_default in
  let other := shared.MkTile (Some 0) in
  let f := λ x y : Z, Some (x - y)%Z in
  shared.tensor h t = None ∧
  shared.assign h t 5%Z = None ∧
  shared.clone h t = None ∧
  shared.binary_tile f h t other = None ∧
  shared.binary_tile f h other t = None ∧
  shared.binary_tile_to f h t other = None ∧
  shared.binary_tile_to f h other t = None ∧
  shared.serialize_out h t [] = Some ([] ++ [shared.ar_bool true]).
Proof.
  intros h t other f.
  apply (tile_null_pointer h t other 5%Z f []). reflexivity.
Defined.

(** X20.  Serialization round trip.  A tile that is empty or holds a tensor
    is written as the flag followed, when it is not empty, by the tensor;
    reading those items back, on any store and with anything after them in
    the archive, returns a tile that stands for the same value (empty, or
    the same tensor), consumes exactly the items written, gives the tile a
    pointer that no tile of the reading side had, and leaves the tensors of
    the reading side's tiles as they were. *)
Theorem tile_serialize_round_trip {T : Type} (h : shared.store T)
    (t : shared.Tile) (ar : list (shared.archive_item T)) :
  shared.pimpl_ t = None ∨ is_Some (shared.tensor h t) →
  ∃ out,
    shared.serialize_out h t ar = Some (ar ++ out) ∧
    ∀ (h2 : shared.store T) rest,
      ∃ t' h2',
        shared.serialize_in h2 (out ++ rest) = Some (t', h2', rest) ∧
        tile_value h2' t' = tile_value h t ∧
        ∀ b, is_Some (shared.tensor h2 b) →
             shared.tensor h2' b = shared.tensor h2 b ∧
             shared.pimpl_ b ≠ shared.pimpl_ t'.
Proof.
  intros [Hnull|[x Hx]].
  - exists [shared.ar_bool true].
    unfold shared.serialize_out. rewrite Hnull. simpl. split; [done|].
    intros h2 rest. eexists _, _. split; [done|]. split.
    + unfold tile_value, shared.tensor. by rewrite Hnull.
    + intros b [y Hy]. split; [done|]. simpl.
      intros Hb. unfold shared.tensor in Hy. by rewrite Hb in Hy.
  - destruct (tensor_Some_ptr h t x Hx) as (p & Hp & _ & _).
    exists [shared.ar_bool false; shared.ar_tensor x].
    unfold shared.serialize_out. rewrite Hp, Hx. simpl.
    split; [by rewrite <- (assoc_L (++))|].
    intros h2 rest. eexists _, _. split; [done|]. split.
    + unfold tile_value. by rewrite tensor_new, Hx.
    + intros b Hb. by apply tensor_make_shared.
Qed.

Lemma tile_serialize_round_trip_witness :
  let h := [10; 3]%Z in
  let t := shared.MkTile (Some 1) in
  ∃ out,
    shared.serialize_out h t [] = Some ([] ++ out) ∧
    ∀ (h2 : shared.store Z) rest,
      ∃ t' h2',
        shared.serialize_in h2 (out ++ rest) = Some (t', h2', rest) ∧
        tile_value h2' t' = tile_value h t ∧
        ∀ b, is_Some (shared.tensor h2 b) →
             shared.tensor h2' b = shared.tensor h2 b ∧
             shared.pimpl_ b ≠ shared.pimpl_ t'.
Proof.
  intros h t. apply (tile_serialize_round_trip h t []).
  right. by eexists.
Defined.

(** ** conversions.cpp: which tiles survive the two conversions *)

Lemma set_random_bound (rand : Z) : (-100 ≤ set_random rand ≤ 100)%Z.
Proof.
  unfold set_random.
  pose proof (Z.rem_bound_abs rand 101 ltac:(lia)). lia.
Qed.

(** X21.  Every tile that the fixture can draw survives the two
    conversions: whatever the generator returns, [make_rand_tile] fills the
    tile with one value per element, each between -100 and 100, uses one
    draw per element, and [tensorf_to_tensori] after [tensori_to_tensorf]
    gives the tile back. *)
Theorem make_rand_tile_round_trip (rand : nat → Z) (next : nat)
    (r : list nat) :
  let t := (make_rand_tile rand next r).1 in
  range t = r ∧
  length (data t) = volume r ∧
  (make_rand_tile rand next r).2 = next + volume r ∧
  (∀ i, i < volume r →
        data t !! i = Some (set_random (rand (next + i)))) ∧
  Forall (λ x, (-100 ≤ x ≤ 100)%Z) (data t) ∧
  tensorf_to_tensori (tensori_to_tensorf t) = Some t.
Proof.
  cbv zeta. unfold make_rand_tile. cbn [fst snd range data].
  assert (Hb : Forall (λ x, (-100 ≤ x ≤ 100)%Z)
                 ((λ i, set_random (rand (next + i))) <$> seq 0 (volume r))).
  { apply Forall_fmap, Forall_forall. intros i _. apply set_random_bound. }
  split_and!.
  - done.
  - by rewrite length_fmap, length_seq.
  - done.
  - intros i Hi. rewrite list_lookup_fmap, lookup_seq_lt by done. done.
  - done.
  - apply tensor_round_trip. cbn [data].
    eapply Forall_impl; [exact Hb|]. intros x Hx. cbv beta in Hx. split.
    + unfold int_range, int_min, int_max. lia.
    + apply representable_small. lia.
Qed.

Lemma float_of_int_even (x : Z) :
  (2 ^ 24 ≤ Z.abs x)%Z → Z.even (float_value (float_of_int x)) = true.
Proof.
  intros Hx. unfold float_of_int. cbv zeta.
  destruct (decide (Z.abs x < 2 ^ 24)%Z) as [Hlt|_].
  - assert (Z.abs x = 2 ^ 24)%Z as Ha by lia. simpl.
    destruct (Z.abs_eq_or_opp x) as [He|He]; rewrite He in Ha.
    + by rewrite Ha.
    + assert (x = - 2 ^ 24)%Z as -> by lia. done.
  - assert (He : (1 ≤ Z.log2 (Z.abs x) - 23)%Z).
    { pose proof (Z.log2_le_mono (2 ^ 24) (Z.abs x) Hx) as Hl.
      rewrite Z.log2_pow2 in Hl by lia. lia. }
    set (e := (Z.log2 (Z.abs x) - 23)%Z) in *.
    set (q := if decide _ then _ else _).
    cbn [float_value].
    replace (2 ^ e)%Z with (2 * 2 ^ (e - 1))%Z.
    + rewrite !Z.even_mul. simpl. by rewrite !orb_true_r.
    + rewrite <- Z.pow_succ_r by lia. f_equal. lia.
Qed.

Lemma float_of_int_near_max (x : Z) :
  (2 ^ 31 - 64 ≤ x ≤ int_max)%Z → float_of_int x = Float (2 ^ 31).
Proof.
  unfold int_max. intros Hx. unfold float_of_int. cbv zeta.
  assert (Ha : Z.abs x = x) by lia. rewrite Ha.
  rewrite decide_False by lia.
  assert (Hl : Z.log2 x = 30%Z).
  { apply Z.log2_unique; lia. }
  rewrite Hl. change (30 - 23)%Z with 7%Z. change (7 - 1)%Z with 6%Z.
  assert (Hs : Z.sgn x = 1%Z) by (apply Z.sgn_pos; lia). rewrite Hs.
  assert (Hq : (x / 2 ^ 7 = 2 ^ 24 - 1)%Z).
  { change (2 ^ 7)%Z with 128%Z. Z.div_mod_to_equations. lia. }
  assert (Hr : (2 ^ 6 ≤ x mod 2 ^ 7)%Z).
  { change (2 ^ 7)%Z with 128%Z. Z.div_mod_to_equations. lia. }
  rewrite Hq. rewrite decide_False by lia.
  f_equal. destruct (decide _); [|change (Z.even (2 ^ 24 - 1)) with false];
    cbn match; lia.
Qed.

(** X22.  Where the two conversions lose an [int].  For an [int] [x],
    [int(float(x))] is [x] exactly when [float] holds [x] exactly; [float]
    holds no odd number beyond [2 ^ 24] in size; and for the 64 largest
    [int]s [float(x)] is [2 ^ 31], which no [int] holds, so that
    [tensorf_to_tensori] has no result on a tile that came from one of
    them. *)
Theorem conversion_loses_ints (x : Z) :
  int_range x →
  (int_of_float (float_of_int x) = Some x ↔ representable x) ∧
  ((2 ^ 24 < Z.abs x)%Z → Z.odd x = true → ¬ representable x) ∧
  ((2 ^ 31 - 64 ≤ x)%Z →
     int_of_float (float_of_int x) = None ∧
     ∀ r before after,
       tensorf_to_tensori
         (tensori_to_tensorf (MkTensor r (before ++ x :: after))) = None).
Proof.
  intros Hx. split_and!.
  - split; [|by apply int_of_float_of_int].
    unfold int_of_float, representable.
    destruct (float_of_int x) as [v]. simpl.
    case_decide; [|done]. by intros [= ->].
  - intros Hbig Hodd Hrep.
    pose proof (float_of_int_even x ltac:(lia)) as Hev.
    rewrite Hrep in Hev. simpl in Hev.
    rewrite <- Z.negb_odd, Hodd in Hev. done.
  - intros Hnear.
    assert (Hnone : int_of_float (float_of_int x) = None).
    { rewrite float_of_int_near_max by (unfold int_range in Hx; lia).
      reflexivity. }
    split; [done|].
    intros r before after. unfold tensorf_to_tensori, tensori_to_tensorf.
    cbn [data range].
    destruct (mapM int_of_float (float_of_int <$> before ++ x :: after))
      as [d|] eqn:Hd; [|done].
    apply mapM_Some_1 in Hd.
    rewrite fmap_app, fmap_cons in Hd.
    apply Forall2_app_inv_l in Hd as (d1 & d2 & _ & Hd2 & _).
    apply Forall2_cons_inv_l in Hd2 as (y & d2' & Hy & _ & _).
    rewrite Hnone in Hy. done.
Qed.

(** The largest [int]. *)
Lemma conversion_loses_ints_witness :
  (int_of_float (float_of_int int_max) = Some int_max
     ↔ representable int_max) ∧
  ((2 ^ 24 < Z.abs int_max)%Z → Z.odd int_max = true →
     ¬ representable int_max) ∧
  ((2 ^ 31 - 64 ≤ int_max)%Z →
     int_of_float (float_of_int int_max) = None ∧
     ∀ r before after,
       tensorf_to_tensori
         (tensori_to_tensorf (MkTensor r (before ++ int_max :: after)))
       = None).
Proof.
  apply (conversion_loses_ints int_max).
  unfold int_range, int_min, int_max. lia.
Defined.

(** ** permute_tiled_tensor.h: [init_shape_helper] on a partial block *)

(** X24.  [init_shape_helper] walks whole blocks of the argument's shape:
    called on a block that has a set bit and that the argument's shape does
    not fill (its size ends inside the block), it reads the shape past its
    last bit, and has no result, whatever the destination. *)
Theorem init_shape_helper_partial_block {CS : CoordinateSystem}
    (arg : tensor_arg) (invp_weight : list nat) (shape : Bitset.t) (b : nat) :
  Bitset.block (arg_get_shape arg) b = Some true →
  Bitset.size (arg_get_shape arg) < b * count + count →
  init_shape_helper arg invp_weight shape b = None.
Proof.
  intros Hblock Hsize. unfold init_shape_helper. rewrite Hblock.
  cbn [mbind option_bind]. cbv zeta.
  assert (Hfirst : b * count ≤ Bitset.size (arg_get_shape arg)).
  { unfold Bitset.block in Hblock. case_decide as Hb; [|done].
    unfold Bitset.num_blocks in Hb. unfold count.
    pose proof (Nat.div_mod_eq (Bitset.size (arg_get_shape arg))
                  Bitset.block_bits) as Hdm.
    case_decide; nia. }
  rewrite (for_loop_stuck
    (λ s : nat * list nat * Bitset.t,
       s.1.1 ≤ Bitset.size (arg_get_shape arg))); [done | | |].
  - intros s Hs. apply bool_decide_eq_true_2. lia.
  - intros [[first index] sh] s' Hs. unfold init_shape_pass.
    cbn [fst snd] in *.
    destruct (Bitset.get (arg_get_shape arg) first) as [bit|] eqn:Hbit;
      [|done].
    apply lookup_lt_Some in Hbit. fold (Bitset.size (arg_get_shape arg)) in Hbit.
    simpl. destruct bit.
    + destruct (Bitset.set sh _); [|done]. simpl. intros [= <-]. simpl. lia.
    + simpl. intros [= <-]. simpl. lia.
  - cbn [fst snd]. done.
Qed.

(** A shape of four bits with bit 1 set, block 0. *)
Lemma init_shape_helper_partial_block_witness :
  let arg := TensorArg [2; 2] decreasing_dimension_order false
               (Bitset.Make [false; true; false; false]) in
  init_shape_helper (CS := cs_decreasing) arg [1; 2] (Bitset.new 4) 0 = None.
Proof.
  intros arg.
  apply (init_shape_helper_partial_block (CS := cs_decreasing) arg [1; 2]
           (Bitset.new 4) 0).
  - reflexivity.
  - vm_compute. lia.
Defined.
